(** * Partition reconciliation and queue-hierarchy validation

    A shallow embedding of [pkg/cache/initializer.go] of the scheduler
    core, with the properties of its specification proved over it.

    Layout:
    - [resources]: resource vectors (package [resources]);
    - [configs]: the typed configuration handed in by the loader;
    - [QueueInfo], [PartitionInfo]: the queue tree and the partition;
    - the hierarchy validator [checkResourceConfigurationsForQueue];
    - the store of partition objects, the cluster registry and the two
      entry points [SetClusterInfoFromConfigFile] and
      [UpdateClusterInfoFromConfigFile];
    - the theorems. *)

From stdpp Require Import gmap strings list fin_maps.

Set Warnings "-register-all".

Open Scope Z_scope.

(* ===================================================================== *)
(** ** Resource vectors *)
(* ===================================================================== *)

Module resources.

(** Modelled from the spec: the type [resources.Resource] is declared
    outside [initializer.go].  A resource vector maps a dimension name to
    a signed integer quantity; a dimension that is absent counts as
    zero.  The specification leaves the width of a quantity open; the
    model takes integers without a bound. *)
Abbreviation Resource := (gmap string Z).

(** Quantity of one dimension, zero when the dimension is absent. *)
Definition quantity (r : Resource) (dim : string) : Z :=
  default 0 (r !! dim).

(** Modelled from the spec: [resources.NewResource] is missing from the
    sources; it builds a fresh vector without any dimension (the zero
    vector). *)
Definition NewResource : Resource := ∅.

(** Modelled from the spec: the method [AddTo] of [Resource] is missing
    from the sources; [sum.AddTo(r)] replaces [sum] by the elementwise sum
    of [sum] and [r] over the union of their dimensions. *)
Definition AddTo (sum r : Resource) : Resource :=
  union_with (λ a b, Some (a + b)) sum r.

(** Modelled from the spec: [resources.FitIn] is missing from the
    sources; [FitIn larger smaller] holds iff on every dimension present
    in either vector the quantity of [smaller] is at most the quantity of
    [larger], absent dimensions counting as zero on both sides. *)
Definition FitIn (larger smaller : Resource) : bool :=
  forallb (λ dim, quantity smaller dim <=? quantity larger dim)
          (elements (dom larger ∪ dom smaller)).

End resources.

Import resources.

(* ===================================================================== *)
(** ** Errors *)
(* ===================================================================== *)

(** The source builds its errors with [fmt.Errorf]; each message becomes a
    constructor carrying the values the message prints.  An error of the
    configuration loader is passed on unchanged. *)
Inductive Error : Type :=
  | ErrRegisteredBefore (rmID : string) (active : nat)
  | ErrNoActivePartitions (rmID : string)
  | ErrConfigLoad (msg : string)
  | ErrGuaranteedBelowChildren (queue : string) (guaranteed sum : Resource)
  | ErrMaxAboveParent (queue : string) (max parentMax : Resource)
  | ErrMaxBelowGuaranteed (queue : string) (max guaranteed : Resource).

(** The error kinds of the specification. *)
Inductive ErrorKind : Type := StateConflict | ConfigLoad | InvalidHierarchy.

Definition kind (e : Error) : ErrorKind :=
  match e with
  | ErrRegisteredBefore _ _ | ErrNoActivePartitions _ => StateConflict
  | ErrConfigLoad _ => ConfigLoad
  | ErrGuaranteedBelowChildren _ _ _ | ErrMaxAboveParent _ _ _
  | ErrMaxBelowGuaranteed _ _ _ => InvalidHierarchy
  end.

(** Errors raised by the two maximum checks of the validator. *)
Definition isMaxError (e : Error) : bool :=
  match e with
  | ErrMaxAboveParent _ _ _ | ErrMaxBelowGuaranteed _ _ _ => true
  | _ => false
  end.

(* ===================================================================== *)
(** ** Configuration *)
(* ===================================================================== *)

Module configs.

(** Modelled from the spec: package [configs] is outside the sources.  A
    queue definition names the queue, optionally gives its guaranteed
    and maximum vectors, and lists the definitions of its children in
    order. *)
Module QueueConfig.
Inductive t : Type := mk {
  Name : string;
  Guaranteed : option Resource;
  Max : option Resource;
  Queues : list t
}.
End QueueConfig.

(** Modelled from the spec: a partition entry has a name and the queue
    definitions of its single root queue. *)
Module PartitionConfig.
Record t : Type := mk {
  Name : string;
  Queues : QueueConfig.t
}.
End PartitionConfig.

(** Modelled from the spec: the typed, already validated configuration;
    only its list of partition entries is read here. *)
Record SchedulerConfig : Type := mkSchedulerConfig {
  Partitions : list PartitionConfig.t
}.

End configs.

Import configs.

(* ===================================================================== *)
(** ** Queues and partitions *)
(* ===================================================================== *)

(** Modelled from the spec: [QueueInfo] is declared outside
    [initializer.go].  The model keeps the four fields the validator reads
    and writes, under the names the source uses.  A [nil] resource pointer
    is [None]; the children are an ordered collection. *)
Module QueueInfo.
Inductive t : Type := mk {
  Name : string;
  guaranteedResource : option Resource;
  maxResource : option Resource;
  children : list t
}.
End QueueInfo.

Inductive PartitionState : Type := ACTIVE | PENDING_REMOVAL.

(** Modelled from the spec: [PartitionInfo] is declared outside
    [initializer.go]; the fields are those of the specification's data
    model. *)
Module PartitionInfo.
Record t : Type := mk {
  Name : string;
  Root : QueueInfo.t;
  state : PartitionState;
  RmID : string
}.
End PartitionInfo.

(* ===================================================================== *)
(** ** The hierarchy validator *)
(* ===================================================================== *)

(** The second loop of the validator: [sum.AddTo(child.guaranteedResource)]
    for every child, starting from [sum].  The children have been checked
    before, so their guaranteed pointer is never [nil] here (lemma
    [check_sets_guaranteed]); on a [nil] pointer the accumulator is left as
    it is. *)
Definition addGuaranteed (sum : Resource) (cs : list QueueInfo.t) : Resource :=
  fold_left (λ sum child,
               match QueueInfo.guaranteedResource child with
               | Some g => AddTo sum g
               | None => sum
               end) cs sum.

(** The guaranteed quantities of the children on one dimension, added up;
    a child without a guaranteed vector counts as zero. *)
Definition guaranteedQuantity (dim : string) (cs : list QueueInfo.t) : Z :=
  foldr (λ child acc,
           quantity (default NewResource (QueueInfo.guaranteedResource child))
                    dim + acc) 0 cs.

(** First half of the body (lines 172-196), once the children have been
    checked and replaced by [cs]: the guaranteed vector of the node after
    the block, or the error of the sum check. *)
Definition checkGuaranteed (name : string) (guaranteed : option Resource)
    (cs : list QueueInfo.t) : Error + Resource :=
  match cs with
  | _ :: _ =>
      let sum := addGuaranteed NewResource cs in
      match guaranteed with
      | Some g =>
          if negb (FitIn g sum)
          then inl (ErrGuaranteedBelowChildren name g sum)
          else inr g
      | None => inr sum
      end
  | [] =>
      match guaranteed with
      | Some g => inr g
      | None => inr NewResource
      end
  end.

(** Second half of the body (lines 198-209): the checks on the maximum of
    [cur], whose guaranteed vector is set by now. *)
Definition checkMax (cur : QueueInfo.t) (parent : option QueueInfo.t)
    (guaranteed : Resource) : option Error :=
  match QueueInfo.maxResource cur with
  | Some max =>
      let parentErr :=
        match parent with
        | Some p =>
            match QueueInfo.maxResource p with
            | Some parentMax =>
                if negb (FitIn parentMax max)
                then Some (ErrMaxAboveParent (QueueInfo.Name cur) max parentMax)
                else None
            | None => None
            end
        | None => None
        end in
      match parentErr with
      | Some err => Some err
      | None =>
          if negb (FitIn max guaranteed)
          then Some (ErrMaxBelowGuaranteed (QueueInfo.Name cur) max guaranteed)
          else None
      end
  | None => None
  end.

(** [checkResourceConfigurationsForQueue cur parent].  The source works on
    the tree in place and returns an error or [nil]; here the result is the
    error, or the tree as the call leaves it.  When the call fails the
    tree, which is private to the caller and dropped with the error, is not
    returned.  A child is checked against [cur] as its parent; of the
    parent only [maxResource] is read, which the check never writes, so the
    node as it was on entry stands for the pointer. *)
Fixpoint checkResourceConfigurationsForQueue (cur : QueueInfo.t)
    (parent : option QueueInfo.t) {struct cur} : Error + QueueInfo.t :=
  match cur with
  | QueueInfo.mk name guaranteed max cs =>
      let checkAll :=
        fix checkAll (l : list QueueInfo.t) : Error + list QueueInfo.t :=
          match l with
          | [] => inr []
          | child :: rest =>
              match checkResourceConfigurationsForQueue child (Some cur) with
              | inl err => inl err
              | inr child' =>
                  match checkAll rest with
                  | inl err => inl err
                  | inr rest' => inr (child' :: rest')
                  end
              end
          end in
      match checkAll cs with
      | inl err => inl err
      | inr cs' =>
          match checkGuaranteed name guaranteed cs' with
          | inl err => inl err
          | inr g =>
              match checkMax cur parent g with
              | Some err => inl err
              | None => inr (QueueInfo.mk name (Some g) max cs')
              end
          end
      end
  end.

(** The first loop of the validator as a function of its own: the
    children are checked in order against the parent [cur], stopping at the
    first error. *)
Fixpoint checkChildren (cur : QueueInfo.t) (l : list QueueInfo.t)
    : Error + list QueueInfo.t :=
  match l with
  | [] => inr []
  | child :: rest =>
      match checkResourceConfigurationsForQueue child (Some cur) with
      | inl err => inl err
      | inr child' =>
          match checkChildren cur rest with
          | inl err => inl err
          | inr rest' => inr (child' :: rest')
          end
      end
  end.

(** Every queue of a tree: the node and, recursively, its descendants. *)
Fixpoint subqueues (q : QueueInfo.t) : list QueueInfo.t :=
  q :: flat_map subqueues (QueueInfo.children q).

(* ===================================================================== *)
(** ** Building partitions *)
(* ===================================================================== *)

(** Modelled from the spec: the construction of the queue tree of a
    partition is outside [initializer.go]; the tree is constructed in full
    from the queue definitions of the entry, one node per definition. *)
Fixpoint buildQueue (conf : QueueConfig.t) : QueueInfo.t :=
  match conf with
  | QueueConfig.mk name guaranteed max queues =>
      QueueInfo.mk name guaranteed max (map buildQueue queues)
  end.

(** Modelled from the spec: [newPartitionInfo] is missing from the sources.
    It creates the partition of an entry: named as the entry, owning the
    tree built from the entry, active, owned by [rmID].  Its third
    argument, the cluster the partition will belong to ([nil] for a
    candidate), is only kept as a back-reference, which the model leaves
    out.  The specification gives construction no failure of its own. *)
Definition newPartitionInfo (part : PartitionConfig.t) (rmID : string)
    : Error + PartitionInfo.t :=
  inr (PartitionInfo.mk (PartitionConfig.Name part)
                        (buildQueue (PartitionConfig.Queues part))
                        ACTIVE rmID).

(** [newPartitionInfoInternal]: create, then check the tree from the root.
    The check works on the tree of the new partition in place, so the
    partition returned owns the tree as the validator leaves it. *)
Definition newPartitionInfoInternal (part : PartitionConfig.t) (rmID : string)
    : Error + PartitionInfo.t :=
  match newPartitionInfo part rmID with
  | inl err => inl err
  | inr partition =>
      match checkResourceConfigurationsForQueue
              (PartitionInfo.Root partition) None with
      | inl err => inl err
      | inr root =>
          inr (PartitionInfo.mk (PartitionInfo.Name partition) root
                                (PartitionInfo.state partition)
                                (PartitionInfo.RmID partition))
      end
  end.

(** Modelled from the spec: [updatePartitionDetails] is missing from the
    sources.  The update is applied in place to the existing partition: its
    queue tree is replaced by the new tree of the entry, in the form that
    passed validation (section 3: a changed configuration produces an
    entirely new tree that is validated before replacing the old one);
    name, state and owner stay.  The result is the partition after the call
    and the error returned, if any. *)
Definition updatePartitionDetails (pi : PartitionInfo.t)
    (partition : PartitionConfig.t) : PartitionInfo.t * option Error :=
  match checkResourceConfigurationsForQueue
          (buildQueue (PartitionConfig.Queues partition)) None with
  | inl err => (pi, Some err)
  | inr root =>
      (PartitionInfo.mk (PartitionInfo.Name pi) root (PartitionInfo.state pi)
                        (PartitionInfo.RmID pi), None)
  end.

(** Modelled from the spec: [markPartitionForRemoval] is missing from the
    sources; it moves the partition to PENDING_REMOVAL and changes nothing
    else, so a partition already in that state is left as it is. *)
Definition markPartitionForRemoval (pi : PartitionInfo.t) : PartitionInfo.t :=
  PartitionInfo.mk (PartitionInfo.Name pi) (PartitionInfo.Root pi)
                   PENDING_REMOVAL (PartitionInfo.RmID pi).

(* ===================================================================== *)
(** ** The cluster registry and the store of partitions *)
(* ===================================================================== *)

(** Partitions are shared by pointer: the registry, the lists returned to
    the caller and the updates in place all reach the same object.  A
    pointer [*PartitionInfo] is [None] for [nil] or the address of a
    partition in the store. *)
Abbreviation loc := positive.
Abbreviation ptr := (option loc).

(** The state the two entry points work on: the store of partition
    objects, the two fields of [ClusterInfo] that are used (the map
    [partitions] and [policyGroup]), and the global [configs.ConfigContext],
    which records the active configuration of each policy group. *)
Record World : Type := mkWorld {
  objects : gmap loc PartitionInfo.t;
  partitions : gmap string ptr;
  policyGroup : string;
  ConfigContext : gmap string SchedulerConfig
}.

(** A new partition object at a fresh address. *)
Definition alloc (w : World) (pi : PartitionInfo.t) : loc * World :=
  let l := fresh (dom (objects w)) in
  (l, mkWorld (<[l := pi]> (objects w)) (partitions w) (policyGroup w)
              (ConfigContext w)).

(** Writing through a pointer. *)
Definition store (w : World) (l : loc) (pi : PartitionInfo.t) : World :=
  mkWorld (<[l := pi]> (objects w)) (partitions w) (policyGroup w)
          (ConfigContext w).

(** Modelled from the spec: [addPartition] is missing from the sources; it
    inserts the pointer it is given into the registry under [name]. *)
Definition addPartition (w : World) (name : string) (info : ptr) : World :=
  mkWorld (objects w) (<[name := info]> (partitions w)) (policyGroup w)
          (ConfigContext w).

(** Modelled from the spec: [ConfigContext.Set] is missing from the
    sources; it records [conf] as the active configuration of the policy
    group. *)
Definition ConfigContext_Set (w : World) (policyGroup0 : string)
    (conf : SchedulerConfig) : World :=
  mkWorld (objects w) (partitions w) (policyGroup w)
          (<[policyGroup0 := conf]> (ConfigContext w)).

(** The collaborators whose code is not modelled: the normalisation of a
    partition name with the identity of the resource manager (package
    [common]) and the configuration loader (package [configs]), which
    returns a validated configuration or an error. *)
Class Collaborators : Type := {
  GetNormalizedPartitionName : string → string → string;
  SchedulerConfigLoader : string → Error + SchedulerConfig
}.

(** The loop variable [p] after [p.Name = partitionName]. *)
Definition normalized `{Collaborators} (p : PartitionConfig.t) (rmID : string)
    : PartitionConfig.t :=
  PartitionConfig.mk
    (GetNormalizedPartitionName (PartitionConfig.Name p) rmID)
    (PartitionConfig.Queues p).

(* ===================================================================== *)
(** ** Bootstrap *)
(* ===================================================================== *)

(** The loop of [createPartitionInfos] from the entries [ps] on, with the
    list accumulated so far.  The result is the state reached, the list
    returned and the error returned. *)
Fixpoint createPartitionInfosFrom `{Collaborators} (rmID : string)
    (ps : list PartitionConfig.t) (w : World) (updatedPartitions : list ptr)
    : World * (list ptr * option Error) :=
  match ps with
  | [] => (w, (updatedPartitions, None))
  | p :: rest =>
      let p := normalized p rmID in
      let partitionName := PartitionConfig.Name p in
      match newPartitionInfoInternal p rmID with
      | inl err => (w, ([], Some err))
      | inr partition =>
          let '(l, w) := alloc w partition in
          let w := addPartition w partitionName (Some l) in
          createPartitionInfosFrom rmID rest w (updatedPartitions ++ [Some l])
      end
  end.

Definition createPartitionInfos `{Collaborators} (w : World)
    (conf : SchedulerConfig) (rmID : string)
    : World * (list ptr * option Error) :=
  createPartitionInfosFrom rmID (Partitions conf) w [].

Definition SetClusterInfoFromConfigFile `{Collaborators} (w : World)
    (rmID : string) (policyGroup0 : string)
    : World * (list ptr * option Error) :=
  if (0 <? size (partitions w))%nat
  then (w, ([], Some (ErrRegisteredBefore rmID (size (partitions w)))))
  else
    match SchedulerConfigLoader policyGroup0 with
    | inl err => (w, ([], Some err))
    | inr conf =>
        let w := ConfigContext_Set w policyGroup0 conf in
        match createPartitionInfos w conf rmID with
        | (w, (_, Some err)) => (w, ([], Some err))
        | (w, (updatedPartitions, None)) => (w, (updatedPartitions, None))
        end
    end.

(* ===================================================================== *)
(** ** Incremental reconciliation *)
(* ===================================================================== *)

(** The body of the first loop of [UpdateClusterInfoFromConfigFile] for one
    entry: the state after it, and the error it returns with or the
    pointer it appends to [updatedPartitions].  [None] is a run-time panic
    on a [nil] pointer: the registry can hold [nil] under a name, and
    [updatePartitionDetails] works on the partition behind its receiver.
    (A pointer without an object in the store does not exist in Go; the
    model stops on it in the same way.)  The candidate built for an
    existing partition is dropped by the source and is not kept in the
    store. *)
Definition updateEntry `{Collaborators} (rmID : string)
    (p : PartitionConfig.t) (w : World) : option (World * (Error + ptr)) :=
  let p := normalized p rmID in
  let partitionName := PartitionConfig.Name p in
  match partitions w !! PartitionConfig.Name p with
  | Some part =>
      match newPartitionInfoInternal p rmID with
      | inl err => Some (w, inl err)
      | inr _ =>
          match part with
          | None => None
          | Some l =>
              match objects w !! l with
              | None => None
              | Some pi =>
                  let '(pi, err) := updatePartitionDetails pi p in
                  let w := store w l pi in
                  match err with
                  | Some err => Some (w, inl err)
                  | None => Some (w, inr part)
                  end
              end
          end
      end
  | None =>
      let '(w, part, err) :=
        match newPartitionInfoInternal p rmID with
        | inl err => (w, None, Some err)
        | inr partition => let '(l, w) := alloc w partition in (w, Some l, None)
        end in
      let w := addPartition w partitionName part in
      match err with
      | Some err => Some (w, inl err)
      | None => Some (w, inr part)
      end
  end.

(** The first loop from the entries [ps] on. *)
Fixpoint updateEntries `{Collaborators} (rmID : string)
    (ps : list PartitionConfig.t) (w : World) (updatedPartitions : list ptr)
    (visited : gset string)
    : option (World * (Error + list ptr * gset string)) :=
  match ps with
  | [] => Some (w, inr (updatedPartitions, visited))
  | p :: rest =>
      match updateEntry rmID p w with
      | None => None
      | Some (w, inl err) => Some (w, inl err)
      | Some (w, inr part) =>
          updateEntries rmID rest w (updatedPartitions ++ [part])
            ({[PartitionConfig.Name (normalized p rmID)]} ∪ visited)
      end
  end.

(** The second loop, over the entries of the registry.  Go leaves the
    order of a [range] over a map open; the model walks the entries in the
    order [map_to_list] lists them.  Reading [part.Name] through a [nil]
    pointer is a panic. *)
Fixpoint markRemoved (visited : gset string) (entries : list (string * ptr))
    (w : World) (deletedPartitions : list ptr) : option (World * list ptr) :=
  match entries with
  | [] => Some (w, deletedPartitions)
  | (_, part) :: rest =>
      match part with
      | None => None
      | Some l =>
          match objects w !! l with
          | None => None
          | Some pi =>
              if bool_decide (PartitionInfo.Name pi ∈ visited)
              then markRemoved visited rest w deletedPartitions
              else markRemoved visited rest
                     (store w l (markPartitionForRemoval pi))
                     (deletedPartitions ++ [part])
          end
      end
  end.

Definition UpdateClusterInfoFromConfigFile `{Collaborators} (w : World)
    (rmID : string) : option (World * (list ptr * list ptr * option Error)) :=
  if (size (partitions w) =? 0)%nat
  then Some (w, ([], [], Some (ErrNoActivePartitions rmID)))
  else
    match SchedulerConfigLoader (policyGroup w) with
    | inl err => Some (w, ([], [], Some err))
    | inr conf =>
        let w := ConfigContext_Set w (policyGroup w) conf in
        match updateEntries rmID (Partitions conf) w [] ∅ with
        | None => None
        | Some (w, inl err) => Some (w, ([], [], Some err))
        | Some (w, inr (updatedPartitions, visited)) =>
            match markRemoved visited (map_to_list (partitions w)) w [] with
            | None => None
            | Some (w, deletedPartitions) =>
                Some (w, (updatedPartitions, deletedPartitions, None))
            end
        end
    end.

(** The start of [UpdateClusterInfoFromConfigFile] up to the entry [p]:
    the checks pass, the configuration is loaded and recorded, and the
    entries before [p] are processed without an error. *)
Definition reachesEntry `{Collaborators} (w : World) (rmID : string)
    (pre : list PartitionConfig.t) (p : PartitionConfig.t)
    (post : list PartitionConfig.t) (w1 : World) : Prop :=
  size (partitions w) ≠ 0%nat ∧
  ∃ conf updated1 visited1,
    SchedulerConfigLoader (policyGroup w) = inr conf ∧
    Partitions conf = pre ++ p :: post ∧
    updateEntries rmID pre (ConfigContext_Set w (policyGroup w) conf) [] ∅
      = Some (w1, inr (updated1, visited1)).

(** The registry holds the partition at [l] under its own name [k]. *)
Definition registered (w : World) (k : string) (l : loc) : Prop :=
  partitions w !! k = Some (Some l) ∧
  ∃ pi, objects w !! l = Some pi ∧ PartitionInfo.Name pi = k.

(** The normalised names of the entries of a configuration. *)
Definition entryNames `{Collaborators} (rmID : string)
    (ps : list PartitionConfig.t) : list string :=
  map (λ p, PartitionConfig.Name (normalized p rmID)) ps.

(** The registry is well formed: every name holds the address of a
    partition in the store, and that partition bears the name.  Bootstrap
    and every successful reconciliation leave the registry so. *)
Definition wellFormed (w : World) : Prop :=
  ∀ k part, partitions w !! k = Some part →
            ∃ l, part = Some l ∧ registered w k l.

(** The entry [p] has been applied: its partition is registered, and owns
    the tree of the entry as validation leaves it. *)
Definition settled `{Collaborators} (rmID : string) (w : World)
    (p : PartitionConfig.t) : Prop :=
  ∃ l pi,
    partitions w !! PartitionConfig.Name (normalized p rmID) = Some (Some l) ∧
    objects w !! l = Some pi ∧
    PartitionInfo.Name pi = PartitionConfig.Name (normalized p rmID) ∧
    checkResourceConfigurationsForQueue
      (buildQueue (PartitionConfig.Queues p)) None
      = inr (PartitionInfo.Root pi).

(** The pointers the registry holds for the entries, in their order. *)
Definition registeredPointers `{Collaborators} (rmID : string) (w : World)
    (ps : list PartitionConfig.t) : list ptr :=
  map (λ name, default None (partitions w !! name)) (entryNames rmID ps).

(** The set [visited] after the first loop has gone through [ps]. *)
Definition visitedAfter `{Collaborators} (rmID : string)
    (ps : list PartitionConfig.t) (visited : gset string) : gset string :=
  foldl (λ visited p,
           {[PartitionConfig.Name (normalized p rmID)]} ∪ visited) visited ps.

(** The pointers among [entries] whose partition has a name outside
    [visited], in order. *)
Fixpoint unvisited (visited : gset string)
    (objs : gmap loc PartitionInfo.t) (entries : list (string * ptr))
    : list ptr :=
  match entries with
  | [] => []
  | (_, part) :: rest =>
      match part ≫= (λ l, objs !! l) with
      | Some pi =>
          if bool_decide (PartitionInfo.Name pi ∈ visited)
          then unvisited visited objs rest
          else part :: unvisited visited objs rest
      | None => unvisited visited objs rest
      end
  end.

(* ===================================================================== *)
(** ** Worked configurations *)
(* ===================================================================== *)

(** A vector with one dimension. *)
Definition vec (dim : string) (q : Z) : Resource := {[dim := q]}.

Definition leafConfig (name : string) (guaranteed : Resource) : QueueConfig.t :=
  QueueConfig.mk name (Some guaranteed) None [].

(** The scenario of the specification: the root declares memory 100, its
    children [a] and [b] declare 40 and [b]. *)
Definition declaredRoot (b : Z) : QueueConfig.t :=
  QueueConfig.mk "root" (Some (vec "memory" 100)) None
    [leafConfig "a" (vec "memory" 40); leafConfig "b" (vec "memory" b)].

(** The root declares nothing, the children declare cpu 2 and cpu 3. *)
Definition inferredRoot : QueueConfig.t :=
  QueueConfig.mk "root" None None
    [leafConfig "a" (vec "cpu" 2); leafConfig "b" (vec "cpu" 3)].

(** The root declares cpu 4, less than the 5 of its children. *)
Definition overcommittedRoot : QueueConfig.t :=
  QueueConfig.mk "root" (Some (vec "cpu" 4)) None
    [leafConfig "a" (vec "cpu" 2); leafConfig "b" (vec "cpu" 3)].

(** The root declares memory 10 under a maximum of memory 100, and its
    child declares memory 20. *)
Definition cappedRoot : QueueInfo.t :=
  QueueInfo.mk "root" (Some (vec "memory" 10)) (Some (vec "memory" 100))
    [QueueInfo.mk "a" (Some (vec "memory" 20)) None []].

(** A leaf without a guaranteed vector and without a maximum. *)
Definition bareLeaf : QueueInfo.t := QueueInfo.mk "leaf" None None [].

(** The tree a successful check leaves. *)
Definition validated (q : QueueInfo.t) : QueueInfo.t :=
  match checkResourceConfigurationsForQueue q None with
  | inr q' => q'
  | inl _ => q
  end.

(** Collaborators for the examples: the name is prefixed with the identity
    of the resource manager in brackets, and the loader returns [conf] for
    every policy group. *)
Definition exampleCollaborators (conf : SchedulerConfig) : Collaborators :=
  {| GetNormalizedPartitionName name rmID := "[" +:+ rmID +:+ "]" +:+ name;
     SchedulerConfigLoader _ := inr conf |}.

Definition entry (name : string) (root : QueueConfig.t) : PartitionConfig.t :=
  PartitionConfig.mk name root.

Definition emptyWorld : World := mkWorld ∅ ∅ "policy" ∅.

(** Two valid partitions. *)
Definition confTwo : SchedulerConfig :=
  mkSchedulerConfig [entry "default" (declaredRoot 50); entry "gpu" inferredRoot].

(** The first of them alone. *)
Definition confOne : SchedulerConfig :=
  mkSchedulerConfig [entry "default" (declaredRoot 50)].

(** [default] changed and valid, then [gpu] with a tree that fails. *)
Definition confUpdateThenBadExisting : SchedulerConfig :=
  mkSchedulerConfig
    [entry "default" (declaredRoot 45); entry "gpu" overcommittedRoot].

(** [default] as before, then a new partition with a tree that fails. *)
Definition confGoodThenBadNew : SchedulerConfig :=
  mkSchedulerConfig
    [entry "default" (declaredRoot 50); entry "batch" overcommittedRoot].

(** The registry after bootstrap with [confTwo]: [default] at address 1
    and [gpu] at address 2. *)
Definition worldTwo : World :=
  (@SetClusterInfoFromConfigFile (exampleCollaborators confTwo)
     emptyWorld "rm" "policy").1.

(** The state a successful run of the first loop over [ps] leaves. *)
Definition afterEntries (C : Collaborators) (w : World) (rmID : string)
    (conf : SchedulerConfig) (ps : list PartitionConfig.t) : World :=
  match @updateEntries C rmID ps (ConfigContext_Set w (policyGroup w) conf)
          [] ∅ with
  | Some (w1, _) => w1
  | None => w
  end.

(** The state a call of [UpdateClusterInfoFromConfigFile] leaves. *)
Definition afterUpdate (C : Collaborators) (w : World) (rmID : string) : World :=
  match @UpdateClusterInfoFromConfigFile C w rmID with
  | Some (w1, _) => w1
  | None => w
  end.

(** The quantity a child of the root of the partition at [l] is guaranteed
    on [dim]. *)
Definition childGuaranteed (w : World) (l : loc) (i : nat) (dim : string)
    : option Z :=
  pi ← objects w !! l;
  child ← QueueInfo.children (PartitionInfo.Root pi) !! i;
  g ← QueueInfo.guaranteedResource child;
  g !! dim.

(** Well-formedness as a test on the entries of the registry. *)
Definition wellFormedb (w : World) : bool :=
  forallb (λ '(k, part),
             match part ≫= (λ l, objects w !! l) with
             | Some pi => bool_decide (PartitionInfo.Name pi = k)
             | None => false
             end) (map_to_list (partitions w)).

(** A leaf that declares more than its maximum. *)
Definition tightLeaf : QueueInfo.t :=
  QueueInfo.mk "leaf" (Some (vec "memory" 100)) (Some (vec "memory" 50)) [].

(** The partition bootstrap creates for the entry [gpu] of [confTwo]. *)
Definition gpuPartition : PartitionInfo.t :=
  PartitionInfo.mk "[rm]gpu" (validated (buildQueue inferredRoot)) ACTIVE "rm".

(** The error of the validator on [overcommittedRoot]. *)
Definition overcommittedError : Error :=
  ErrGuaranteedBelowChildren "root" (vec "cpu" 4) (vec "cpu" 5).

(** The registry after bootstrap with [confOne]: [default] at address 1. *)
Definition worldOne : World :=
  (@SetClusterInfoFromConfigFile (exampleCollaborators confOne)
     emptyWorld "rm" "policy").1.

(** A new partition [gpu] that is valid, then [default], which exists,
    with a tree that fails. *)
Definition confNewThenBadExisting : SchedulerConfig :=
  mkSchedulerConfig
    [entry "gpu" inferredRoot; entry "default" overcommittedRoot].


(* ===================================================================== *)
(** ** Notions for the further properties *)
(* ===================================================================== *)

(** [fills q q']: [q'] is [q] with guaranteed vectors filled in.  The two
    trees have the same shape, the same names and the same maxima; every
    queue of [q'] has a guaranteed vector, which is the one of [q] wherever
    [q] had one. *)
Inductive fills : QueueInfo.t → QueueInfo.t → Prop :=
  | fills_node (name : string) (guaranteed : option Resource) (g : Resource)
      (max : option Resource) (cs cs' : list QueueInfo.t) :
      (∀ declared, guaranteed = Some declared → g = declared) →
      Forall2 fills cs cs' →
      fills (QueueInfo.mk name guaranteed max cs)
            (QueueInfo.mk name (Some g) max cs').

(** The queue an error of the validator prints first. *)
Definition errorQueue (e : Error) : option string :=
  match e with
  | ErrGuaranteedBelowChildren queue _ _ | ErrMaxAboveParent queue _ _
  | ErrMaxBelowGuaranteed queue _ _ => Some queue
  | _ => None
  end.

(** No queue of the tree has a maximum, and no queue with children
    declares a guaranteed vector. *)
Fixpoint undeclared (q : QueueInfo.t) : bool :=
  match q with
  | QueueInfo.mk _ guaranteed max cs =>
      match max with
      | Some _ => false
      | None =>
          match cs, guaranteed with
          | _ :: _, Some _ => false
          | _, _ => forallb undeclared cs
          end
      end
  end.

(** The maximum of the parent, if there is a parent and it has one. *)
Definition parentMax (parent : option QueueInfo.t) : option Resource :=
  match parent with
  | Some p => QueueInfo.maxResource p
  | None => None
  end.

(** A tree with a maximum on the root and on its only child. *)
Definition cappedFamily : QueueInfo.t :=
  QueueInfo.mk "root" None (Some (vec "memory" 100))
    [QueueInfo.mk "a" (Some (vec "memory" 30)) (Some (vec "memory" 60)) []].

(** The second child of the root fails: it declares more than its
    maximum. *)
Definition familyWithTightLeaf : QueueInfo.t :=
  QueueInfo.mk "root" (Some (vec "memory" 1)) None
    [QueueInfo.mk "a" (Some (vec "memory" 5)) None []; tightLeaf;
     QueueInfo.mk "c" None None []].

(** The error of the validator on [tightLeaf]. *)
Definition tightLeafError : Error :=
  ErrMaxBelowGuaranteed "leaf" (vec "memory" 50) (vec "memory" 100).

(** [part] is the partition created for the entry [p] between the states
    [w] and [w']: a pointer to an object that [w] did not have, which in
    [w'] bears the normalised name of the entry and owns its tree as
    validation leaves it. *)
Definition createdFor `{Collaborators} (rmID : string) (w w' : World)
    (p : PartitionConfig.t) (part : ptr) : Prop :=
  ∃ l pi,
    part = Some l ∧ objects w !! l = None ∧ objects w' !! l = Some pi ∧
    PartitionInfo.Name pi = PartitionConfig.Name (normalized p rmID) ∧
    checkResourceConfigurationsForQueue
      (buildQueue (PartitionConfig.Queues p)) None
      = inr (PartitionInfo.Root pi).

(** The tree of the entry passes [newPartitionInfoInternal]. *)
Definition entryValid `{Collaborators} (rmID : string)
    (p : PartitionConfig.t) : Prop :=
  ∃ partition, newPartitionInfoInternal (normalized p rmID) rmID = inr partition.

(** Collaborators whose loader fails. *)
Definition failingCollaborators (err : Error) : Collaborators :=
  {| GetNormalizedPartitionName name rmID := "[" +:+ rmID +:+ "]" +:+ name;
     SchedulerConfigLoader _ := inl err |}.

(** What the leaves of a tree declare as guaranteed on one dimension,
    added up; a leaf that declares nothing counts as zero. *)
Fixpoint leafQuantity (dim : string) (q : QueueInfo.t) : Z :=
  match q with
  | QueueInfo.mk _ guaranteed _ cs =>
      match cs with
      | [] => quantity (default NewResource guaranteed) dim
      | _ :: _ => foldr Z.add 0 (map (leafQuantity dim) cs)
      end
  end.

(* ===================================================================== *)
(** * Properties *)
(* ===================================================================== *)

(** ** Resource vectors *)

Lemma FitIn_spec (larger smaller : Resource) :
  FitIn larger smaller = true ↔
  ∀ dim, quantity smaller dim <= quantity larger dim.
Proof.
  unfold FitIn. rewrite forallb_forall. split.
  - intros H dim.
    destruct (decide (dim ∈ dom larger ∪ dom smaller)) as [Hin | Hout].
    + apply Z.leb_le, H, list_elem_of_In, elem_of_elements, Hin.
    + apply not_elem_of_union in Hout as [Hl Hs].
      apply not_elem_of_dom in Hl, Hs. unfold quantity. rewrite Hl, Hs. done.
  - intros H dim _. apply Z.leb_le, H.
Qed.

Lemma FitIn_refl (r : Resource) : FitIn r r = true.
Proof. apply FitIn_spec. intros dim. lia. Qed.

Lemma quantity_AddTo (sum r : Resource) (dim : string) :
  quantity (AddTo sum r) dim = quantity sum dim + quantity r dim.
Proof.
  unfold quantity, AddTo. rewrite lookup_union_with.
  destruct (sum !! dim), (r !! dim); simpl; lia.
Qed.

Lemma quantity_NewResource (dim : string) : quantity NewResource dim = 0.
Proof. unfold quantity, NewResource. by rewrite lookup_empty. Qed.

(** ** The validator: equations and inversion *)

(** Induction on a queue tree with the hypothesis on every child. *)
Lemma QueueInfo_tree_ind (P : QueueInfo.t → Prop)
    (step : ∀ name guaranteed max cs,
        Forall P cs → P (QueueInfo.mk name guaranteed max cs)) :
  ∀ q, P q.
Proof.
  fix IH 1. intros [name guaranteed max cs]. apply step.
  induction cs as [| c r IHr]; constructor; [apply IH | apply IHr].
Qed.

(** The validator is its two loops followed by the two blocks of checks. *)
Lemma check_unfold (cur : QueueInfo.t) (parent : option QueueInfo.t) :
  checkResourceConfigurationsForQueue cur parent =
  match checkChildren cur (QueueInfo.children cur) with
  | inl err => inl err
  | inr cs' =>
      match checkGuaranteed (QueueInfo.Name cur)
                            (QueueInfo.guaranteedResource cur) cs' with
      | inl err => inl err
      | inr g =>
          match checkMax cur parent g with
          | Some err => inl err
          | None =>
              inr (QueueInfo.mk (QueueInfo.Name cur) (Some g)
                                (QueueInfo.maxResource cur) cs')
          end
      end
  end.
Proof.
  destruct cur as [name guaranteed max cs]. cbn [QueueInfo.children
    QueueInfo.Name QueueInfo.guaranteedResource QueueInfo.maxResource].
  assert (Hloop : ∀ cur l,
    (fix checkAll (l : list QueueInfo.t) : Error + list QueueInfo.t :=
       match l with
       | [] => inr []
       | child :: rest =>
           match checkResourceConfigurationsForQueue child (Some cur) with
           | inl err => inl err
           | inr child' =>
               match checkAll rest with
               | inl err => inl err
               | inr rest' => inr (child' :: rest')
               end
           end
       end) l = checkChildren cur l).
  { intros cur. induction l as [| c r IH]; [done |].
    cbn [checkChildren]. by rewrite <- IH. }
  cbn [checkResourceConfigurationsForQueue]. by rewrite Hloop.
Qed.

Lemma check_inr_inv (cur : QueueInfo.t) (parent : option QueueInfo.t)
    (cur' : QueueInfo.t) :
  checkResourceConfigurationsForQueue cur parent = inr cur' →
  ∃ cs' g,
    checkChildren cur (QueueInfo.children cur) = inr cs' ∧
    checkGuaranteed (QueueInfo.Name cur)
                    (QueueInfo.guaranteedResource cur) cs' = inr g ∧
    checkMax cur parent g = None ∧
    cur' = QueueInfo.mk (QueueInfo.Name cur) (Some g)
                        (QueueInfo.maxResource cur) cs'.
Proof.
  rewrite check_unfold. intros H.
  destruct (checkChildren cur (QueueInfo.children cur)) as [e | cs'] eqn:Hcs;
    [done |].
  destruct (checkGuaranteed _ _ cs') as [e | g] eqn:Hg; [done |].
  destruct (checkMax cur parent g) as [e |] eqn:Hmax; [done |].
  exists cs', g. inversion H. auto.
Qed.

Lemma checkChildren_Forall2 (cur : QueueInfo.t) (l l' : list QueueInfo.t) :
  checkChildren cur l = inr l' →
  Forall2 (λ c c', checkResourceConfigurationsForQueue c (Some cur) = inr c')
          l l'.
Proof.
  revert l'. induction l as [| c r IH]; intros l' H; cbn in H.
  - inversion H. constructor.
  - destruct (checkResourceConfigurationsForQueue c (Some cur)) as [e | c'] eqn:Hc;
      [done |].
    destruct (checkChildren cur r) as [e | r']; [done |].
    inversion H. constructor; [done | by apply IH].
Qed.

(** A checked queue always carries a guaranteed vector. *)
Lemma check_sets_guaranteed (cur : QueueInfo.t) (parent : option QueueInfo.t)
    (cur' : QueueInfo.t) :
  checkResourceConfigurationsForQueue cur parent = inr cur' →
  is_Some (QueueInfo.guaranteedResource cur').
Proof. intros (cs' & g & _ & _ & _ & ->)%check_inr_inv. by eexists. Qed.

Lemma checkChildren_nil_inv (cur : QueueInfo.t) (l l' : list QueueInfo.t) :
  checkChildren cur l = inr l' → (l = [] ↔ l' = []).
Proof.
  intros H%checkChildren_Forall2. inversion H; subst; split; done.
Qed.

Lemma Forall2_In_r {A B : Type} (R : A → B → Prop) (l : list A) (l' : list B)
    (y : B) :
  Forall2 R l l' → In y l' → ∃ x, In x l ∧ R x y.
Proof.
  induction 1 as [| x y' l l' Hxy _ IH]; intros Hin; [done |].
  destruct Hin as [-> | Hin].
  - exists x. split; [by left | done].
  - destruct (IH Hin) as (x0 & Hx0 & HR). exists x0. split; [by right | done].
Qed.

(** The accumulated vector holds, on every dimension, the start value plus
    the guaranteed quantities of the children. *)
Lemma quantity_addGuaranteed (sum : Resource) (cs : list QueueInfo.t)
    (dim : string) :
  quantity (addGuaranteed sum cs) dim =
  quantity sum dim + guaranteedQuantity dim cs.
Proof.
  revert sum. induction cs as [| c r IH]; intros sum.
  - cbn. lia.
  - change (addGuaranteed sum (c :: r)) with
      (addGuaranteed (match QueueInfo.guaranteedResource c with
                      | Some g => AddTo sum g
                      | None => sum
                      end) r).
    rewrite IH. cbn [guaranteedQuantity foldr].
    destruct (QueueInfo.guaranteedResource c) as [g |]; cbn [default].
    + rewrite quantity_AddTo. unfold guaranteedQuantity, id. lia.
    + rewrite quantity_NewResource. unfold guaranteedQuantity. lia.
Qed.

(** ** The guarantee-sum invariant *)

Lemma checkGuaranteed_fits (name : string) (guaranteed : option Resource)
    (cs : list QueueInfo.t) (g : Resource) :
  cs ≠ [] →
  checkGuaranteed name guaranteed cs = inr g →
  FitIn g (addGuaranteed NewResource cs) = true.
Proof.
  intros Hne H. destruct cs as [| c r]; [done |]. cbn [checkGuaranteed] in H.
  destruct guaranteed as [gd |].
  - destruct (FitIn gd _) eqn:Hfit; cbn in H; [| done]. by inversion H; subst.
  - inversion H. apply FitIn_refl.
Qed.

(** C1. In a tree that the validator accepts, every queue that has a child
    carries a guaranteed vector, declared or inferred, within which the
    elementwise sum of the guaranteed vectors of its children fits.  The
    statement is about the tree as validation leaves it, for the root
    ([parent = None]) and for any subtree. *)
Theorem guarantee_sum_invariant (root : QueueInfo.t)
    (parent : option QueueInfo.t) (root' : QueueInfo.t) :
  checkResourceConfigurationsForQueue root parent = inr root' →
  ∀ node, In node (subqueues root') → QueueInfo.children node ≠ [] →
    ∃ g, QueueInfo.guaranteedResource node = Some g ∧
         FitIn g (addGuaranteed NewResource (QueueInfo.children node)) = true ∧
         ∀ dim, guaranteedQuantity dim (QueueInfo.children node)
                <= quantity g dim.
Proof.
  revert parent root'.
  induction root as [name guaranteed max cs IH] using QueueInfo_tree_ind.
  intros parent root' Hcheck node Hnode Hchildren.
  apply check_inr_inv in Hcheck as (cs' & g & Hcs & Hg & _ & ->).
  cbn [QueueInfo.children QueueInfo.Name QueueInfo.guaranteedResource] in *.
  cbn [subqueues QueueInfo.children] in Hnode.
  destruct Hnode as [<- | Hnode].
  - cbn [QueueInfo.children QueueInfo.guaranteedResource] in *.
    exists g. pose proof (checkGuaranteed_fits _ _ _ _ Hchildren Hg) as Hfit.
    repeat split; [done |]. intros dim.
    apply FitIn_spec with (dim := dim) in Hfit.
    rewrite quantity_addGuaranteed, quantity_NewResource in Hfit. lia.
  - apply in_flat_map in Hnode as (c' & Hc' & Hnode).
    apply checkChildren_Forall2 in Hcs.
    destruct (Forall2_In_r _ _ _ _ Hcs Hc') as (c & Hc & Hcc').
    rewrite Forall_forall in IH.
    apply (IH c (proj2 (list_elem_of_In _ _) Hc) _ _ Hcc' node Hnode Hchildren).
Qed.

(** ** Inferred guarantees *)

(** C7. A queue whose guaranteed vector is unset and that the validator
    accepts leaves validation with a guaranteed vector: the zero vector
    when it has no children, the elementwise sum of the guaranteed vectors
    of its checked children otherwise.  A leaf without a declared guarantee
    is not rejected for that: it is accepted with the zero vector unless one
    of the checks on its own maximum fails, and always when its maximum is
    unset. *)
Theorem inferred_guarantee (cur : QueueInfo.t) (parent : option QueueInfo.t) :
  QueueInfo.guaranteedResource cur = None →
  (∀ cur', checkResourceConfigurationsForQueue cur parent = inr cur' →
     QueueInfo.guaranteedResource cur' =
       Some (match QueueInfo.children cur with
             | [] => NewResource
             | _ :: _ => addGuaranteed NewResource (QueueInfo.children cur')
             end)) ∧
  (QueueInfo.children cur = [] →
     checkResourceConfigurationsForQueue cur parent =
       match checkMax cur parent NewResource with
       | Some err => inl err
       | None => inr (QueueInfo.mk (QueueInfo.Name cur) (Some NewResource)
                                   (QueueInfo.maxResource cur) [])
       end) ∧
  (QueueInfo.children cur = [] → QueueInfo.maxResource cur = None →
     checkResourceConfigurationsForQueue cur parent =
       inr (QueueInfo.mk (QueueInfo.Name cur) (Some NewResource) None [])).
Proof.
  intros Hunset. split; [| split].
  - intros cur' (cs' & g & Hcs & Hg & _ & ->)%check_inr_inv.
    rewrite Hunset in Hg. cbn [QueueInfo.guaranteedResource QueueInfo.children].
    pose proof (checkChildren_nil_inv _ _ _ Hcs) as Hnil.
    destruct (QueueInfo.children cur) as [| c r], cs' as [| c' r'];
      cbn in Hg.
    + by inversion Hg.
    + by destruct Hnil as [Hnil _]; specialize (Hnil eq_refl).
    + by destruct Hnil as [_ Hnil]; specialize (Hnil eq_refl).
    + by inversion Hg.
  - intros Hleaf. rewrite check_unfold, Hleaf, Hunset. done.
  - intros Hleaf Hmax. rewrite check_unfold, Hleaf, Hunset. cbn.
    unfold checkMax. by rewrite Hmax.
Qed.

(** ** The checks on the maximum *)

Lemma checkMax_Some_iff (cur : QueueInfo.t) (parent : option QueueInfo.t)
    (g max : Resource) :
  QueueInfo.maxResource cur = Some max →
  is_Some (checkMax cur parent g) ↔
  (∃ p parentMax, parent = Some p ∧
                  QueueInfo.maxResource p = Some parentMax ∧
                  FitIn parentMax max = false) ∨
  FitIn max g = false.
Proof.
  intros Hmax. unfold checkMax. rewrite Hmax.
  destruct parent as [p |]; [destruct (QueueInfo.maxResource p) as [pm |] eqn:Hpm |].
  - destruct (FitIn pm max) eqn:Hfit; cbn.
    + destruct (FitIn max g) eqn:Hg; cbn; split;
        try (intros [? [=]]); try (by eexists); try (by right).
      intros [(p0 & pm0 & [= <-] & Hpm0 & Hf) | [=]]. congruence.
    + split; [| by eexists]. intros _. left. by exists p, pm.
  - destruct (FitIn max g) eqn:Hg; cbn; split;
      try (intros [? [=]]); try (by eexists); try (by right).
    intros [(p0 & pm0 & [= <-] & Hpm0 & Hf) | [=]]. congruence.
  - destruct (FitIn max g) eqn:Hg; cbn; split;
      try (intros [? [=]]); try (by eexists); try (by right).
    intros [(p0 & pm0 & [=] & _) | [=]].
Qed.

Lemma checkMax_kind (cur : QueueInfo.t) (parent : option QueueInfo.t)
    (g : Resource) (err : Error) :
  checkMax cur parent g = Some err →
  isMaxError err = true ∧ kind err = InvalidHierarchy.
Proof.
  unfold checkMax. intros H.
  destruct (QueueInfo.maxResource cur) as [max |]; [| done].
  destruct parent as [p |]; [destruct (QueueInfo.maxResource p) as [pm |] |];
    [destruct (FitIn pm max) | |]; cbn in H;
    try (destruct (FitIn max g); cbn in H); by inversion H.
Qed.

(** C2 (amended). Once the children of a queue have been checked and its
    guaranteed vector has been settled as [g] (declared and at least the
    sum of the children, or inferred), the outcome is decided by the
    maximum alone.  With a maximum set, validation fails, with an
    InvalidHierarchy error, exactly when the parent has a maximum within
    which the maximum of the queue does not fit, or when [g] does not fit
    within the maximum of the queue.  With no maximum set nothing is
    checked and the queue is accepted. *)
Theorem max_checks_decide (cur : QueueInfo.t) (parent : option QueueInfo.t)
    (cs' : list QueueInfo.t) (g : Resource) :
  checkChildren cur (QueueInfo.children cur) = inr cs' →
  checkGuaranteed (QueueInfo.Name cur) (QueueInfo.guaranteedResource cur) cs'
    = inr g →
  match QueueInfo.maxResource cur with
  | Some max =>
      (∃ err, checkResourceConfigurationsForQueue cur parent = inl err ∧
              kind err = InvalidHierarchy) ↔
      ((∃ p parentMax, parent = Some p ∧
                       QueueInfo.maxResource p = Some parentMax ∧
                       FitIn parentMax max = false) ∨
       FitIn max g = false)
  | None =>
      checkResourceConfigurationsForQueue cur parent =
        inr (QueueInfo.mk (QueueInfo.Name cur) (Some g) None cs')
  end.
Proof.
  intros Hcs Hg. rewrite check_unfold, Hcs, Hg.
  destruct (QueueInfo.maxResource cur) as [max |] eqn:Hmax.
  - rewrite <- (checkMax_Some_iff cur parent g max Hmax).
    destruct (checkMax cur parent g) as [err |] eqn:Hcheck.
    + split; [by eexists |]. intros _. exists err. split; [done |].
      by apply checkMax_kind in Hcheck as [_ ?].
    + split; [by intros (err & [=] & _) | by intros [? [=]]].
  - unfold checkMax. by rewrite Hmax.
Qed.

(** ** The registry: bootstrap *)

Section registry.
Context `{Collaborators}.

Lemma createPartitionInfosFrom_app (rmID : string)
    (pre post : list PartitionConfig.t) (w : World) (updated : list ptr) :
  createPartitionInfosFrom rmID (pre ++ post) w updated =
  match createPartitionInfosFrom rmID pre w updated with
  | (w1, (_, Some err)) => (w1, ([], Some err))
  | (w1, (updated1, None)) => createPartitionInfosFrom rmID post w1 updated1
  end.
Proof.
  revert w updated. induction pre as [| p pre IH]; intros w updated; [done |].
  cbn [app createPartitionInfosFrom].
  destruct (newPartitionInfoInternal (normalized p rmID) rmID); [done |].
  destruct (alloc w t) as [l w0]. apply IH.
Qed.

Lemma createPartitionInfosFrom_ConfigContext (rmID : string)
    (ps : list PartitionConfig.t) (w : World) (updated : list ptr) :
  ConfigContext (createPartitionInfosFrom rmID ps w updated).1 =
  ConfigContext w.
Proof.
  revert w updated. induction ps as [| p ps IH]; intros w updated; [done |].
  cbn [createPartitionInfosFrom].
  destruct (newPartitionInfoInternal (normalized p rmID) rmID); [done |].
  cbn. by rewrite IH.
Qed.

Lemma updateEntries_app (rmID : string) (pre post : list PartitionConfig.t)
    (w : World) (updated : list ptr) (visited : gset string) :
  updateEntries rmID (pre ++ post) w updated visited =
  match updateEntries rmID pre w updated visited with
  | None => None
  | Some (w1, inl err) => Some (w1, inl err)
  | Some (w1, inr (updated1, visited1)) =>
      updateEntries rmID post w1 updated1 visited1
  end.
Proof.
  revert w updated visited.
  induction pre as [| p pre IH]; intros w updated visited; [done |].
  cbn [app updateEntries].
  destruct (updateEntry rmID p w) as [[w0 [err | part]] |]; [done | | done].
  apply IH.
Qed.

Lemma updateEntry_ConfigContext (rmID : string) (p : PartitionConfig.t)
    (w w' : World) (r : Error + ptr) :
  updateEntry rmID p w = Some (w', r) → ConfigContext w' = ConfigContext w.
Proof.
  unfold updateEntry. intros Hstep.
  destruct (partitions w !! _) as [part |].
  - destruct (newPartitionInfoInternal _ rmID); [by inversion Hstep |].
    destruct part as [l |]; [| done].
    destruct (objects w !! l) as [pi |]; [| done].
    destruct (updatePartitionDetails pi _) as [pi' [err |]];
      by inversion Hstep.
  - destruct (newPartitionInfoInternal _ rmID); by inversion Hstep.
Qed.

Lemma updateEntries_ConfigContext (rmID : string)
    (ps : list PartitionConfig.t) (w w' : World) (updated : list ptr)
    (visited : gset string) (r : Error + list ptr * gset string) :
  updateEntries rmID ps w updated visited = Some (w', r) →
  ConfigContext w' = ConfigContext w.
Proof.
  revert w updated visited.
  induction ps as [| p ps IH]; intros w updated visited Hloop;
    cbn [updateEntries] in Hloop; [by inversion Hloop |].
  destruct (updateEntry rmID p w) as [[w0 [err | part]] |] eqn:Hstep;
    [| | done].
  - inversion Hloop; subst. by eapply updateEntry_ConfigContext.
  - apply IH in Hloop. rewrite Hloop. by eapply updateEntry_ConfigContext.
Qed.

Lemma markRemoved_frame (visited : gset string)
    (entries : list (string * ptr)) (w w' : World) (deleted deleted' : list ptr) :
  markRemoved visited entries w deleted = Some (w', deleted') →
  ConfigContext w' = ConfigContext w ∧ partitions w' = partitions w ∧
  policyGroup w' = policyGroup w.
Proof.
  revert w deleted.
  induction entries as [| [k part] entries IH]; intros w deleted Hloop;
    cbn [markRemoved] in Hloop; [by inversion Hloop |].
  destruct part as [l |]; [| done].
  destruct (objects w !! l) as [pi |]; [| done].
  destruct (bool_decide _); apply IH in Hloop; done.
Qed.

(** C6. On a registry that holds at least one partition, bootstrap fails
    with a StateConflict error and changes nothing: the state comes back
    as it went in (store of partitions, registry, policy group and active
    configurations).  The loader has no part in it: the result is the same
    with any other loader in its place. *)
Theorem bootstrap_precondition (w : World) (rmID policyGroup0 : string) :
  (0 < size (partitions w))%nat →
  SetClusterInfoFromConfigFile w rmID policyGroup0 =
    (w, ([], Some (ErrRegisteredBefore rmID (size (partitions w))))) ∧
  kind (ErrRegisteredBefore rmID (size (partitions w))) = StateConflict ∧
  ∀ other : Collaborators,
    @SetClusterInfoFromConfigFile other w rmID policyGroup0 =
    SetClusterInfoFromConfigFile w rmID policyGroup0.
Proof.
  intros Hsize. unfold SetClusterInfoFromConfigFile.
  apply Nat.ltb_lt in Hsize. by rewrite Hsize.
Qed.

(** C10. Both entry points record the loaded configuration as the active
    one of the policy group before the first partition is built: the
    loops over the entries start from the state in which it is recorded,
    and whatever the outcome of the call, an error included, the
    configuration is the active one in the state the call leaves. *)
Theorem configuration_published_first (w : World) (rmID : string)
    (conf : SchedulerConfig) :
  (∀ policyGroup0 w' r,
     size (partitions w) = 0%nat →
     SchedulerConfigLoader policyGroup0 = inr conf →
     SetClusterInfoFromConfigFile w rmID policyGroup0 = (w', r) →
     w' = (createPartitionInfos
             (ConfigContext_Set w policyGroup0 conf) conf rmID).1 ∧
     ConfigContext w' !! policyGroup0 = Some conf) ∧
  (∀ w' r,
     size (partitions w) ≠ 0%nat →
     SchedulerConfigLoader (policyGroup w) = inr conf →
     UpdateClusterInfoFromConfigFile w rmID = Some (w', r) →
     (∃ w1 r1,
        updateEntries rmID (Partitions conf)
          (ConfigContext_Set w (policyGroup w) conf) [] ∅ = Some (w1, r1) ∧
        ConfigContext w1 = ConfigContext w') ∧
     ConfigContext w' !! policyGroup w = Some conf).
Proof.
  split.
  - intros pg w' r Hsize Hload Hcall. unfold SetClusterInfoFromConfigFile in Hcall.
    rewrite Hsize, Hload in Hcall. cbn in Hcall.
    pose proof (createPartitionInfosFrom_ConfigContext rmID (Partitions conf)
                  (ConfigContext_Set w pg conf) []) as Hctx.
    unfold createPartitionInfos in *.
    destruct (createPartitionInfosFrom _ _ _ _) as [w1 [updated [err |]]];
      inversion Hcall; subst; cbn in *; (split; [done |]);
      rewrite Hctx; apply lookup_insert_eq.
  - intros w' r Hsize Hload Hcall. unfold UpdateClusterInfoFromConfigFile in Hcall.
    apply Nat.eqb_neq in Hsize. rewrite Hsize, Hload in Hcall.
    destruct (updateEntries _ _ _ _ _) as [[w1 [err | [updated visited]]] |]
      eqn:Hloop; [| | done].
    + inversion Hcall; subst. apply updateEntries_ConfigContext in Hloop.
      split; [by eexists _, _ |]. rewrite Hloop. apply lookup_insert_eq.
    + destruct (markRemoved _ _ _ _) as [[w2 deleted] |] eqn:Hmark; [| done].
      inversion Hcall; subst. apply updateEntries_ConfigContext in Hloop.
      apply markRemoved_frame in Hmark as (Hctx & _ & _).
      split; [eexists _, _; split; [done | congruence] |].
      rewrite Hctx, Hloop. apply lookup_insert_eq.
Qed.

(** ** Soft removal *)

Lemma updatePartitionDetails_Name (pi : PartitionInfo.t)
    (p : PartitionConfig.t) :
  PartitionInfo.Name (updatePartitionDetails pi p).1 = PartitionInfo.Name pi.
Proof.
  unfold updatePartitionDetails.
  by destruct (checkResourceConfigurationsForQueue _ None).
Qed.

Lemma alloc_fresh (w w' : World) (pi : PartitionInfo.t) (l : loc) :
  alloc w pi = (l, w') →
  objects w !! l = None ∧ objects w' = <[l := pi]> (objects w) ∧
  partitions w' = partitions w ∧ policyGroup w' = policyGroup w ∧
  ConfigContext w' = ConfigContext w.
Proof.
  unfold alloc. intros [= <- <-]. cbn. split; [| done].
  apply not_elem_of_dom, is_fresh.
Qed.

(** One entry leaves alone what is registered under another name: the
    registry entry, and the object but for an update through an alias. *)
Lemma updateEntry_registered (rmID : string) (p : PartitionConfig.t)
    (w w' : World) (r : Error + ptr) (k : string) (l : loc) :
  updateEntry rmID p w = Some (w', r) →
  PartitionConfig.Name (normalized p rmID) ≠ k →
  registered w k l → registered w' k l.
Proof.
  unfold updateEntry. intros Hstep Hname (Hk & pi & Hl & Hpi).
  destruct (partitions w !! _) as [part |] eqn:Hfound.
  - destruct (newPartitionInfoInternal _ rmID) as [e | cand];
      [inversion Hstep; subst; split; eauto |].
    destruct part as [l0 |]; [| done].
    destruct (objects w !! l0) as [pi0 |] eqn:Hl0; [| done].
    pose proof (updatePartitionDetails_Name pi0 (normalized p rmID)) as HN.
    destruct (updatePartitionDetails pi0 _) as [pi1 err]. cbn in HN.
    assert (registered (store w l0 pi1) k l) as Hreg.
    { split; [done |]. cbn. destruct (decide (l0 = l)) as [-> | Hne].
      - exists pi1. rewrite lookup_insert_eq. split; [done |]. congruence.
      - exists pi. by rewrite lookup_insert_ne. }
    by destruct err; inversion Hstep; subst.
  - destruct (newPartitionInfoInternal _ rmID) as [e | cand].
    + inversion Hstep; subst. split; cbn; [by rewrite lookup_insert_ne | eauto].
    + destruct (alloc w cand) as [l0 w0] eqn:Halloc.
      apply alloc_fresh in Halloc as (Hfresh & Hobj & Hparts & _).
      inversion Hstep; subst. split; cbn.
      * rewrite lookup_insert_ne by done. by rewrite Hparts.
      * exists pi. rewrite Hobj, lookup_insert_ne by congruence. done.
Qed.

(** Without an alias the object is not touched at all. *)
Lemma updateEntry_untouched (rmID : string) (p : PartitionConfig.t)
    (w w' : World) (r : Error + ptr) (k : string) (l : loc)
    (pi : PartitionInfo.t) :
  updateEntry rmID p w = Some (w', r) →
  PartitionConfig.Name (normalized p rmID) ≠ k →
  (∀ name, partitions w !! name = Some (Some l) → name = k) →
  objects w !! l = Some pi →
  (∀ name, partitions w' !! name = Some (Some l) → name = k) ∧
  objects w' !! l = Some pi.
Proof.
  unfold updateEntry. intros Hstep Hname Honly Hl.
  destruct (partitions w !! _) as [part |] eqn:Hfound.
  - destruct (newPartitionInfoInternal _ rmID) as [e | cand];
      [by inversion Hstep; subst |].
    destruct part as [l0 |]; [| done].
    destruct (objects w !! l0) as [pi0 |] eqn:Hl0; [| done].
    destruct (updatePartitionDetails pi0 _) as [pi1 err].
    assert (l0 ≠ l) as Hne by (intros ->; by apply Hname, Honly).
    destruct err; inversion Hstep; subst; cbn;
      by rewrite lookup_insert_ne.
  - destruct (newPartitionInfoInternal _ rmID) as [e | cand].
    + inversion Hstep; subst. cbn. split; [| done].
      intros name Hlook. destruct (decide
        (PartitionConfig.Name (normalized p rmID) = name)) as [<- | Hne].
      * by rewrite lookup_insert_eq in Hlook.
      * rewrite lookup_insert_ne in Hlook by done. by apply Honly.
    + destruct (alloc w cand) as [l0 w0] eqn:Halloc.
      apply alloc_fresh in Halloc as (Hfresh & Hobj & Hparts & _).
      assert (l0 ≠ l) as Hne by congruence.
      inversion Hstep; subst. cbn. rewrite Hobj, Hparts. split.
      * intros name Hlook. destruct (decide
          (PartitionConfig.Name (normalized p rmID) = name)) as [<- | Hne'].
        -- rewrite lookup_insert_eq in Hlook. congruence.
        -- rewrite lookup_insert_ne in Hlook by done. by apply Honly.
      * by rewrite lookup_insert_ne.
Qed.

Lemma updateEntries_visited (rmID : string) (ps : list PartitionConfig.t)
    (w w' : World) (updated updated' : list ptr) (visited visited' : gset string) :
  updateEntries rmID ps w updated visited = Some (w', inr (updated', visited')) →
  ∀ name, name ∈ visited' ↔ name ∈ visited ∨ name ∈ entryNames rmID ps.
Proof.
  revert w updated visited.
  induction ps as [| p ps IH]; intros w updated visited Hloop name;
    cbn [updateEntries] in Hloop.
  - inversion Hloop; subst. cbn. rewrite elem_of_nil. tauto.
  - destruct (updateEntry rmID p w) as [[w0 [err | part]] |]; [done | | done].
    rewrite (IH _ _ _ Hloop). cbn [entryNames map].
    rewrite elem_of_union, elem_of_singleton, elem_of_cons.
    unfold entryNames. tauto.
Qed.

Lemma updateEntries_registered (rmID : string) (ps : list PartitionConfig.t)
    (w w' : World) (updated : list ptr) (visited : gset string)
    (r : Error + list ptr * gset string) (k : string) (l : loc) :
  updateEntries rmID ps w updated visited = Some (w', r) →
  k ∉ entryNames rmID ps →
  registered w k l → registered w' k l.
Proof.
  revert w updated visited.
  induction ps as [| p ps IH]; intros w updated visited Hloop Hk Hreg;
    cbn [updateEntries] in Hloop; [by inversion Hloop; subst |].
  cbn [entryNames map] in Hk. apply not_elem_of_cons in Hk as [Hk1 Hk2].
  destruct (updateEntry rmID p w) as [[w0 [err | part]] |] eqn:Hstep;
    [| | done].
  - inversion Hloop; subst. by eapply updateEntry_registered.
  - eapply IH; [done | done |]. by eapply updateEntry_registered.
Qed.

Lemma updateEntries_untouched (rmID : string) (ps : list PartitionConfig.t)
    (w w' : World) (updated : list ptr) (visited : gset string)
    (r : Error + list ptr * gset string) (k : string) (l : loc)
    (pi : PartitionInfo.t) :
  updateEntries rmID ps w updated visited = Some (w', r) →
  k ∉ entryNames rmID ps →
  (∀ name, partitions w !! name = Some (Some l) → name = k) →
  objects w !! l = Some pi →
  (∀ name, partitions w' !! name = Some (Some l) → name = k) ∧
  objects w' !! l = Some pi.
Proof.
  revert w updated visited.
  induction ps as [| p ps IH]; intros w updated visited Hloop Hk Honly Hl;
    cbn [updateEntries] in Hloop; [by inversion Hloop; subst |].
  cbn [entryNames map] in Hk. apply not_elem_of_cons in Hk as [Hk1 Hk2].
  destruct (updateEntry rmID p w) as [[w0 [err | part]] |] eqn:Hstep;
    [| | done].
  - inversion Hloop; subst. by eapply updateEntry_untouched.
  - destruct (updateEntry_untouched _ _ _ _ _ _ _ _ Hstep
                (not_eq_sym Hk1) Honly Hl) as [Honly0 Hl0].
    by eapply IH.
Qed.

(** The first loop never takes a name out of the registry. *)
Lemma updateEntry_keeps_names (rmID : string) (p : PartitionConfig.t)
    (w w' : World) (r : Error + ptr) (name : string) :
  updateEntry rmID p w = Some (w', r) →
  is_Some (partitions w !! name) → is_Some (partitions w' !! name).
Proof.
  unfold updateEntry. intros Hstep Hname.
  destruct (partitions w !! _) as [part |] eqn:Hfound.
  - destruct (newPartitionInfoInternal _ rmID) as [e | cand];
      [by inversion Hstep; subst |].
    destruct part as [l |]; [| done].
    destruct (objects w !! l) as [pi |]; [| done].
    destruct (updatePartitionDetails pi _) as [pi' [err |]];
      by inversion Hstep; subst.
  - destruct (newPartitionInfoInternal _ rmID) as [e | cand].
    + inversion Hstep; subst. cbn. rewrite lookup_insert_is_Some.
      destruct (decide (GetNormalizedPartitionName (PartitionConfig.Name p)
                          rmID = name)); auto.
    + destruct (alloc w cand) as [l w0] eqn:Halloc.
      apply alloc_fresh in Halloc as (_ & _ & Hparts & _).
      inversion Hstep; subst. cbn.
      rewrite lookup_insert_is_Some, Hparts.
      destruct (decide (GetNormalizedPartitionName (PartitionConfig.Name p)
                          rmID = name)); auto.
Qed.

Lemma updateEntries_keeps_names (rmID : string) (ps : list PartitionConfig.t)
    (w w' : World) (updated : list ptr) (visited : gset string)
    (r : Error + list ptr * gset string) (name : string) :
  updateEntries rmID ps w updated visited = Some (w', r) →
  is_Some (partitions w !! name) → is_Some (partitions w' !! name).
Proof.
  revert w updated visited.
  induction ps as [| p ps IH]; intros w updated visited Hloop Hname;
    cbn [updateEntries] in Hloop; [by inversion Hloop; subst |].
  destruct (updateEntry rmID p w) as [[w0 [err | part]] |] eqn:Hstep;
    [| | done].
  - inversion Hloop; subst. by eapply updateEntry_keeps_names.
  - eapply IH; [done |]. by eapply updateEntry_keeps_names.
Qed.

Lemma markPartitionForRemoval_idem (pi : PartitionInfo.t) :
  markPartitionForRemoval (markPartitionForRemoval pi)
  = markPartitionForRemoval pi.
Proof. done. Qed.

Lemma markPartitionForRemoval_pending (pi : PartitionInfo.t) :
  PartitionInfo.state pi = PENDING_REMOVAL → markPartitionForRemoval pi = pi.
Proof. destruct pi as [n r st rm]. cbn. by intros ->. Qed.

(** The second loop only ever marks: an object is afterwards what it was,
    or that marked for removal; the registry is not written; the list
    only grows at its end. *)
Lemma markRemoved_objects (visited : gset string)
    (entries : list (string * ptr)) (w w' : World) (deleted deleted' : list ptr)
    (l : loc) (pi : PartitionInfo.t) :
  markRemoved visited entries w deleted = Some (w', deleted') →
  objects w !! l = Some pi →
  (objects w' !! l = Some pi ∨
   objects w' !! l = Some (markPartitionForRemoval pi)) ∧
  ∃ more, deleted' = deleted ++ more.
Proof.
  revert w deleted pi.
  induction entries as [| [k part] entries IH]; intros w deleted pi Hloop Hl;
    cbn [markRemoved] in Hloop.
  - inversion Hloop; subst. split; [by left |]. exists []. by rewrite app_nil_r.
  - destruct part as [l0 |]; [| done].
    destruct (objects w !! l0) as [pi0 |] eqn:Hl0; [| done].
    destruct (bool_decide _); [by eapply IH |].
    destruct (decide (l0 = l)) as [-> | Hne].
    + assert (pi0 = pi) as -> by congruence.
      destruct (IH _ _ (markPartitionForRemoval pi) Hloop) as [Hobj [more ->]];
        [cbn; apply lookup_insert_eq |].
      rewrite markPartitionForRemoval_idem in Hobj.
      split; [right; by destruct Hobj |]. rewrite <- app_assoc. by eexists.
    + destruct (IH _ _ pi Hloop) as [Hobj [more ->]];
        [cbn; by rewrite lookup_insert_ne |].
      split; [done |]. rewrite <- app_assoc. by eexists.
Qed.

(** An entry of the registry whose partition has a name that was not
    visited is marked and listed. *)
Lemma markRemoved_marks (visited : gset string)
    (entries : list (string * ptr)) (w w' : World) (deleted deleted' : list ptr)
    (k : string) (l : loc) (pi : PartitionInfo.t) :
  markRemoved visited entries w deleted = Some (w', deleted') →
  (k, Some l) ∈ entries →
  objects w !! l = Some pi →
  PartitionInfo.Name pi ∉ visited →
  objects w' !! l = Some (markPartitionForRemoval pi) ∧ Some l ∈ deleted'.
Proof.
  revert w deleted pi.
  induction entries as [| [k0 part] entries IH];
    intros w deleted pi Hloop Hin Hl Hname; [by apply elem_of_nil in Hin |].
  cbn [markRemoved] in Hloop.
  destruct part as [l0 |]; [| done].
  destruct (objects w !! l0) as [pi0 |] eqn:Hl0; [| done].
  destruct (decide (l0 = l)) as [-> | Hne].
  - assert (pi0 = pi) as -> by congruence.
    rewrite bool_decide_eq_false_2 in Hloop by done.
    destruct (markRemoved_objects _ _ _ _ _ _ l (markPartitionForRemoval pi)
                Hloop) as [Hobj [more ->]]; [cbn; apply lookup_insert_eq |].
    rewrite markPartitionForRemoval_idem in Hobj. split; [by destruct Hobj |].
    rewrite !elem_of_app, list_elem_of_singleton. auto.
  - apply elem_of_cons in Hin as [[= _ ?] | Hin]; [done |].
    destruct (bool_decide _); [by eapply IH |].
    eapply IH; [done | done | cbn; by rewrite lookup_insert_ne | done].
Qed.

(** C8. A partition registered under a name that the new configuration
    does not list survives a successful reconciliation under the same name
    and at the same address, is in state PENDING_REMOVAL afterwards and is
    one of the partitions of the deletions list; no name at all leaves the
    registry.  When the registry reaches the partition under that name
    only, the partition is what it was with the state set, and so is left
    as it is when it was pending removal already. *)
Theorem removal_is_soft (w w' : World) (rmID : string)
    (conf : SchedulerConfig) (updated deleted : list ptr) (k : string)
    (l : loc) (pi : PartitionInfo.t) :
  SchedulerConfigLoader (policyGroup w) = inr conf →
  UpdateClusterInfoFromConfigFile w rmID = Some (w', (updated, deleted, None)) →
  partitions w !! k = Some (Some l) →
  objects w !! l = Some pi →
  PartitionInfo.Name pi = k →
  k ∉ entryNames rmID (Partitions conf) →
  partitions w' !! k = Some (Some l) ∧
  (∃ pi', objects w' !! l = Some pi' ∧
          PartitionInfo.state pi' = PENDING_REMOVAL ∧
          PartitionInfo.Name pi' = k) ∧
  Some l ∈ deleted ∧
  (∀ name, is_Some (partitions w !! name) → is_Some (partitions w' !! name)) ∧
  ((∀ name, partitions w !! name = Some (Some l) → name = k) →
   objects w' !! l = Some (markPartitionForRemoval pi) ∧
   (PartitionInfo.state pi = PENDING_REMOVAL → objects w' !! l = Some pi)).
Proof.
  intros Hload Hcall Hk Hl Hname Hnot.
  unfold UpdateClusterInfoFromConfigFile in Hcall. rewrite Hload in Hcall.
  destruct (size (partitions w) =? 0)%nat; [done |].
  destruct (updateEntries _ _ _ _ _) as [[w1 [err | [upd vis]]] |] eqn:Hloop;
    [done | | done].
  destruct (markRemoved _ _ _ _) as [[w2 del] |] eqn:Hmark; [| done].
  inversion Hcall; subst w2 upd del. clear Hcall.
  assert (registered (ConfigContext_Set w (policyGroup w) conf)
                     (PartitionInfo.Name pi) l) as Hreg0
    by (subst k; split; [done | by exists pi]).
  subst k.
  destruct (updateEntries_registered _ _ _ _ _ _ _ _ l Hloop Hnot Hreg0)
    as (Hk1 & pi1 & Hl1 & Hname1).
  assert (PartitionInfo.Name pi1 ∉ vis) as Hvis.
  { rewrite (updateEntries_visited _ _ _ _ _ _ _ _ Hloop), Hname1.
    rewrite elem_of_empty. tauto. }
  destruct (markRemoved_marks _ _ _ _ _ _ (PartitionInfo.Name pi) l pi1 Hmark)
    as [Hl2 Hdel]; [by apply elem_of_map_to_list | done | done |].
  destruct (markRemoved_frame _ _ _ _ _ _ Hmark) as (_ & Hparts & _).
  split; [by rewrite Hparts |]. split; [by eexists |]. split; [done |].
  split.
  { intros name Hsome. rewrite Hparts.
    by apply (updateEntries_keeps_names _ _ _ _ _ _ _ name Hloop). }
  intros Honly.
  destruct (updateEntries_untouched _ _ _ _ _ _ _ _ l pi Hloop Hnot Honly Hl)
    as [_ Hsame].
  assert (pi1 = pi) as -> by congruence.
  split; [done |]. intros Hpending.
  by rewrite markPartitionForRemoval_pending in Hl2.
Qed.

(** ** Applying the same configuration again *)

Lemma newPartitionInfoInternal_inr (p : PartitionConfig.t) (rmID : string)
    (cand : PartitionInfo.t) :
  newPartitionInfoInternal p rmID = inr cand →
  PartitionInfo.Name cand = PartitionConfig.Name p ∧
  checkResourceConfigurationsForQueue
    (buildQueue (PartitionConfig.Queues p)) None
    = inr (PartitionInfo.Root cand).
Proof.
  unfold newPartitionInfoInternal, newPartitionInfo. cbn.
  destruct (checkResourceConfigurationsForQueue _ None) as [e | root];
    [done |]. by intros [= <-].
Qed.



Lemma registered_inj (w : World) (k1 k2 : string) (l : loc) :
  registered w k1 l → registered w k2 l → k1 = k2.
Proof. intros (_ & pi1 & H1 & <-) (_ & pi2 & H2 & <-). congruence. Qed.

(** One successful step of the first loop: the registry stays well formed
    and only grows, the entry is settled, the pointer appended is the one
    registered for the entry, and the other settled entries stay so. *)
Lemma updateEntry_settles (rmID : string) (p : PartitionConfig.t)
    (w w' : World) (part : ptr) :
  wellFormed w →
  updateEntry rmID p w = Some (w', inr part) →
  wellFormed w' ∧ settled rmID w' p ∧
  partitions w' !! PartitionConfig.Name (normalized p rmID) = Some part ∧
  (∀ k part0, partitions w !! k = Some part0 →
              partitions w' !! k = Some part0) ∧
  (∀ q, PartitionConfig.Name (normalized q rmID)
        ≠ PartitionConfig.Name (normalized p rmID) →
        settled rmID w q → settled rmID w' q).
Proof.
  intros Hwf Hstep. unfold updateEntry in Hstep.
  destruct (partitions w !! _) as [part0 |] eqn:Hfound.
  - destruct (newPartitionInfoInternal _ rmID) as [e | cand] eqn:Hcand;
      [by inversion Hstep |].
    apply newPartitionInfoInternal_inr in Hcand as [_ Hcheck].
    destruct part0 as [l |]; [| done].
    destruct (objects w !! l) as [pi |] eqn:Hl; [| done].
    unfold updatePartitionDetails in Hstep. cbn in Hcheck.
    change (PartitionConfig.Queues (normalized p rmID))
      with (PartitionConfig.Queues p) in Hstep.
    rewrite Hcheck in Hstep. inversion Hstep; subst w' part. clear Hstep.
    destruct (Hwf _ _ Hfound) as (l' & [= <-] & _ & pi' & Hl' & Hname).
    assert (pi' = pi) as -> by congruence.
    split; [| split; [| split; [done | split; [done |]]]].
    + intros k part Hk. destruct (Hwf _ _ Hk) as (l0 & -> & _ & pi0 & Hl0 & Hn0).
      exists l0. split; [done |]. split; [done |]. cbn.
      destruct (decide (l = l0)) as [<- | Hne].
      * rewrite lookup_insert_eq. eexists. split; [done |]. cbn. congruence.
      * rewrite lookup_insert_ne by done. by exists pi0.
    + exists l. eexists. cbn. rewrite lookup_insert_eq. done.
    + intros q Hq (lq & piq & Hkq & Hlq & Hnq & Hcq).
      exists lq, piq. cbn. split; [done |].
      rewrite lookup_insert_ne; [done |]. intros <-. congruence.
  - destruct (newPartitionInfoInternal _ rmID) as [e | cand] eqn:Hcand;
      [by inversion Hstep |].
    apply newPartitionInfoInternal_inr in Hcand as [Hname Hcheck].
    destruct (alloc w cand) as [l w0] eqn:Halloc.
    apply alloc_fresh in Halloc as (Hfresh & Hobj & Hparts & _).
    inversion Hstep; subst w' part. clear Hstep. cbn in Hcheck.
    split; [| split; [| split; [| split]]].
    + intros k part. unfold registered. cbn. rewrite Hparts, Hobj.
      destruct (decide (PartitionConfig.Name (normalized p rmID) = k))
        as [<- | Hne].
      * rewrite lookup_insert_eq. intros [= <-]. exists l. split; [done |].
        split; [done |]. rewrite lookup_insert_eq. by exists cand.
      * rewrite lookup_insert_ne by done. intros Hk.
        destruct (Hwf _ _ Hk) as (l0 & -> & _ & pi0 & Hl0 & Hn0).
        exists l0. split; [done |]. split; [done |].
        rewrite lookup_insert_ne by congruence. by exists pi0.
    + exists l, cand. cbn. rewrite Hobj, !lookup_insert_eq. done.
    + cbn. by rewrite lookup_insert_eq.
    + intros k part0 Hk. cbn. rewrite lookup_insert_ne, Hparts; [done |].
      intros <-. unfold normalized in Hfound. cbn in Hfound. congruence.
    + intros q Hq (lq & piq & Hkq & Hlq & Hnq & Hcq).
      exists lq, piq. cbn. rewrite Hparts, Hobj.
      rewrite lookup_insert_ne by done.
      rewrite lookup_insert_ne by congruence. done.
Qed.



Lemma markRemoved_names (visited : gset string)
    (entries : list (string * ptr)) (w w' : World) (deleted deleted' : list ptr) :
  markRemoved visited entries w deleted = Some (w', deleted') →
  ∀ l, PartitionInfo.Name <$> objects w' !! l
       = PartitionInfo.Name <$> objects w !! l.
Proof.
  revert w deleted.
  induction entries as [| [k part] entries IH]; intros w deleted Hloop l;
    cbn [markRemoved] in Hloop; [by inversion Hloop |].
  destruct part as [l0 |]; [| done].
  destruct (objects w !! l0) as [pi0 |] eqn:Hl0; [| done].
  destruct (bool_decide _); [by eapply IH |].
  rewrite (IH _ _ Hloop l). cbn.
  destruct (decide (l0 = l)) as [<- | Hne].
  - by rewrite lookup_insert_eq, Hl0.
  - by rewrite lookup_insert_ne.
Qed.

Lemma unvisited_names (visited : gset string)
    (objs1 objs2 : gmap loc PartitionInfo.t) (entries : list (string * ptr)) :
  (∀ l, PartitionInfo.Name <$> objs1 !! l = PartitionInfo.Name <$> objs2 !! l) →
  unvisited visited objs1 entries = unvisited visited objs2 entries.
Proof.
  intros Hnames. induction entries as [| [k part] entries IH]; [done |].
  cbn [unvisited]. destruct part as [l |]; cbn; [| done].
  specialize (Hnames l).
  destruct (objs1 !! l) as [pi1 |], (objs2 !! l) as [pi2 |]; cbn in Hnames;
    try done.
  inversion Hnames as [Heq]. rewrite Heq, IH. done.
Qed.

Lemma markRemoved_deleted (visited : gset string)
    (entries : list (string * ptr)) (w w' : World) (deleted deleted' : list ptr) :
  markRemoved visited entries w deleted = Some (w', deleted') →
  deleted' = deleted ++ unvisited visited (objects w) entries.
Proof.
  revert w deleted.
  induction entries as [| [k part] entries IH]; intros w deleted Hloop;
    cbn [markRemoved] in Hloop.
  - inversion Hloop. cbn. by rewrite app_nil_r.
  - destruct part as [l0 |]; [| done]. cbn [unvisited mbind option_bind].
    destruct (objects w !! l0) as [pi0 |] eqn:Hl0; [| done].
    destruct (bool_decide _); [by eapply IH |].
    rewrite (IH _ _ Hloop), <- app_assoc. cbn [app]. do 2 f_equal.
    apply unvisited_names. intros l. cbn.
    destruct (decide (l0 = l)) as [<- | Hne].
    + by rewrite lookup_insert_eq, Hl0.
    + by rewrite lookup_insert_ne.
Qed.







(** Well-formedness is what the entry points establish and keep. *)
Lemma createPartitionInfosFrom_wellFormed (rmID : string)
    (ps : list PartitionConfig.t) (w : World) (updated : list ptr) :
  wellFormed w → wellFormed (createPartitionInfosFrom rmID ps w updated).1.
Proof.
  revert w updated. induction ps as [| p ps IH]; intros w updated Hwf; [done |].
  cbn [createPartitionInfosFrom].
  destruct (newPartitionInfoInternal _ rmID) as [e | cand] eqn:Hcand; [done |].
  apply newPartitionInfoInternal_inr in Hcand as [Hname _].
  destruct (alloc w cand) as [l w0] eqn:Halloc.
  apply alloc_fresh in Halloc as (Hfresh & Hobj & Hparts & _).
  apply IH. intros k part. unfold registered. cbn. rewrite Hparts, Hobj.
  destruct (decide (PartitionConfig.Name (normalized p rmID) = k))
    as [<- | Hne].
  - rewrite lookup_insert_eq. intros [= <-]. exists l. split; [done |].
    split; [done |]. rewrite lookup_insert_eq. by exists cand.
  - rewrite lookup_insert_ne by done. intros Hk.
    destruct (Hwf _ _ Hk) as (l0 & -> & _ & pi0 & Hl0 & Hn0).
    exists l0. split; [done |]. split; [done |].
    rewrite lookup_insert_ne by congruence. by exists pi0.
Qed.

Lemma bootstrap_wellFormed (w : World) (rmID policyGroup0 : string) :
  wellFormed w →
  wellFormed (SetClusterInfoFromConfigFile w rmID policyGroup0).1.
Proof.
  intros Hwf. unfold SetClusterInfoFromConfigFile.
  destruct (0 <? size (partitions w))%nat; [done |].
  destruct (SchedulerConfigLoader policyGroup0) as [e | conf]; [done |].
  pose proof (createPartitionInfosFrom_wellFormed rmID (Partitions conf)
                (ConfigContext_Set w policyGroup0 conf) [] Hwf) as Hwf'.
  unfold createPartitionInfos.
  by destruct (createPartitionInfosFrom _ _ _ _) as [w1 [updated [err |]]].
Qed.

Lemma updateEntries_wellFormed (rmID : string) (ps : list PartitionConfig.t)
    (w w' : World) (updated : list ptr) (visited : gset string)
    (r : list ptr * gset string) :
  wellFormed w →
  updateEntries rmID ps w updated visited = Some (w', inr r) →
  wellFormed w'.
Proof.
  revert w updated visited.
  induction ps as [| p ps IH]; intros w updated visited Hwf Hloop;
    cbn [updateEntries] in Hloop; [by inversion Hloop; subst |].
  destruct (updateEntry rmID p w) as [[w0 [err | part]] |] eqn:Hstep;
    [done | | done].
  eapply IH; [| done]. by eapply updateEntry_settles.
Qed.

Lemma markRemoved_wellFormed (visited : gset string)
    (entries : list (string * ptr)) (w w' : World) (deleted deleted' : list ptr) :
  wellFormed w →
  markRemoved visited entries w deleted = Some (w', deleted') →
  wellFormed w'.
Proof.
  intros Hwf Hmark k part Hk.
  destruct (markRemoved_frame _ _ _ _ _ _ Hmark) as (_ & Hparts & _).
  rewrite Hparts in Hk.
  destruct (Hwf _ _ Hk) as (l & -> & _ & pi & Hl & Hname).
  exists l. split; [done |]. split; [by rewrite Hparts |].
  pose proof (markRemoved_names _ _ _ _ _ _ Hmark l) as Hnames.
  rewrite Hl in Hnames. destruct (objects w' !! l) as [pi' |]; [| done].
  exists pi'. split; [done |]. cbn in Hnames. congruence.
Qed.

Lemma reconcile_wellFormed (w w' : World) (rmID : string)
    (updated deleted : list ptr) :
  wellFormed w →
  UpdateClusterInfoFromConfigFile w rmID = Some (w', (updated, deleted, None)) →
  wellFormed w'.
Proof.
  intros Hwf Hcall. unfold UpdateClusterInfoFromConfigFile in Hcall.
  destruct (size (partitions w) =? 0)%nat; [done |].
  destruct (SchedulerConfigLoader (policyGroup w)) as [e | conf]; [done |].
  destruct (updateEntries _ _ _ _ _) as [[w0 [err | [upd vis]]] |] eqn:Hloop;
    [done | | done].
  destruct (markRemoved _ _ _ _) as [[w2 del] |] eqn:Hmark; [| done].
  inversion Hcall; subst. eapply markRemoved_wellFormed; [| done].
  eapply updateEntries_wellFormed; [| done]. exact Hwf.
Qed.


(** ** Failures in the middle of a call *)

Lemma update_fails_at_entry (w : World) (rmID : string)
    (pre : list PartitionConfig.t) (p : PartitionConfig.t)
    (post : list PartitionConfig.t) (w1 w2 : World) (err : Error) :
  reachesEntry w rmID pre p post w1 →
  updateEntry rmID p w1 = Some (w2, inl err) →
  UpdateClusterInfoFromConfigFile w rmID = Some (w2, ([], [], Some err)).
Proof.
  intros (Hsize & conf & updated1 & visited1 & Hload & Hconf & Hpre) Hstep.
  unfold UpdateClusterInfoFromConfigFile.
  apply Nat.eqb_neq in Hsize. rewrite Hsize, Hload, Hconf.
  rewrite updateEntries_app, Hpre. cbn [updateEntries]. by rewrite Hstep.
Qed.

(** C4 (amended). When the candidate tree of an entry whose partition is
    already in the registry fails validation, the call returns that error
    with empty lists, and the state is the one the entries before it
    left: nothing is changed for the failing entry or the entries after
    it, and nothing done for the earlier entries is undone.  When the
    failing entry is the first one, store, registry and policy group are
    as they were before the call. *)
Theorem candidate_failure_keeps_earlier_state (w : World) (rmID : string)
    (pre : list PartitionConfig.t) (p : PartitionConfig.t)
    (post : list PartitionConfig.t) (w1 : World) (part : ptr) (err : Error) :
  reachesEntry w rmID pre p post w1 →
  partitions w1 !! PartitionConfig.Name (normalized p rmID) = Some part →
  newPartitionInfoInternal (normalized p rmID) rmID = inl err →
  UpdateClusterInfoFromConfigFile w rmID = Some (w1, ([], [], Some err)) ∧
  (pre = [] →
   objects w1 = objects w ∧ partitions w1 = partitions w ∧
   policyGroup w1 = policyGroup w).
Proof.
  intros Hreach Hfound Hcheck. split.
  - apply (update_fails_at_entry w rmID pre p post w1 w1 err Hreach).
    unfold updateEntry. by rewrite Hfound, Hcheck.
  - intros ->. destruct Hreach as (_ & conf & u & v & _ & _ & Hpre).
    cbn in Hpre. by inversion Hpre.
Qed.

(** C3 (what the code does). In the branch for a partition that is not yet
    in the registry, [addPartition] runs before the error of
    [newPartitionInfoInternal] is tested.  When the tree of the new entry
    fails validation the call returns the error, and the registry has
    gained the name of the entry, with [nil] stored under it. *)
Theorem failed_new_partition_is_registered (w : World) (rmID : string)
    (pre : list PartitionConfig.t) (p : PartitionConfig.t)
    (post : list PartitionConfig.t) (w1 : World) (err : Error) :
  reachesEntry w rmID pre p post w1 →
  partitions w1 !! PartitionConfig.Name (normalized p rmID) = None →
  newPartitionInfoInternal (normalized p rmID) rmID = inl err →
  ∃ w2,
    UpdateClusterInfoFromConfigFile w rmID = Some (w2, ([], [], Some err)) ∧
    w2 = addPartition w1 (PartitionConfig.Name (normalized p rmID)) None ∧
    partitions w2 !! PartitionConfig.Name (normalized p rmID) = Some None.
Proof.
  intros Hreach Hnew Hcheck. eexists. split; [| split; [done |]].
  - apply (update_fails_at_entry w rmID pre p post w1 _ err Hreach).
    unfold updateEntry. by rewrite Hnew, Hcheck.
  - apply lookup_insert_eq.
Qed.

(** C5 (amended). A failure at an entry undoes nothing: after a failed
    bootstrap the state is the one reached when the entries before the
    failing one had been created and registered, and after a failed
    reconciliation it is the state the failing entry left, which keeps
    every partition object of the earlier entries and every registry
    entry but the one of the failing name.  The lists returned with the
    error are empty in both cases. *)
Theorem failure_keeps_commits_and_returns_nothing (rmID : string)
    (pre : list PartitionConfig.t) (p : PartitionConfig.t)
    (post : list PartitionConfig.t) (err : Error) :
  (∀ w policyGroup0 conf w1 updated1,
     size (partitions w) = 0%nat →
     SchedulerConfigLoader policyGroup0 = inr conf →
     Partitions conf = pre ++ p :: post →
     createPartitionInfosFrom rmID pre
       (ConfigContext_Set w policyGroup0 conf) [] = (w1, (updated1, None)) →
     newPartitionInfoInternal (normalized p rmID) rmID = inl err →
     SetClusterInfoFromConfigFile w rmID policyGroup0
       = (w1, ([], Some err))) ∧
  (∀ w w1 w2,
     reachesEntry w rmID pre p post w1 →
     updateEntry rmID p w1 = Some (w2, inl err) →
     UpdateClusterInfoFromConfigFile w rmID
       = Some (w2, ([], [], Some err)) ∧
     objects w2 = objects w1 ∧
     ∀ name, name ≠ PartitionConfig.Name (normalized p rmID) →
             partitions w2 !! name = partitions w1 !! name).
Proof.
  split.
  - intros w pg conf w1 updated1 Hsize Hload Hconf Hpre Hcheck.
    unfold SetClusterInfoFromConfigFile, createPartitionInfos.
    rewrite Hsize, Hload, Hconf. cbn [Nat.ltb Nat.leb].
    rewrite createPartitionInfosFrom_app, Hpre.
    cbn [createPartitionInfosFrom]. by rewrite Hcheck.
  - intros w w1 w2 Hreach Hstep.
    split; [by eapply update_fails_at_entry |].
    unfold updateEntry in Hstep.
    destruct (partitions w1 !! _) as [part |] eqn:Hfound.
    + destruct (newPartitionInfoInternal _ rmID) as [e | cand];
        [by inversion Hstep |].
      destruct part as [l |]; [| done].
      destruct (objects w1 !! l) as [pi |] eqn:Hobj; [| done].
      unfold updatePartitionDetails in Hstep.
      destruct (checkResourceConfigurationsForQueue _ None);
        inversion Hstep; subst. cbn. split; [by apply insert_id | done].
    + destruct (newPartitionInfoInternal _ rmID) as [e | cand].
      * inversion Hstep; subst. cbn. split; [done |].
        intros name Hname. by rewrite lookup_insert_ne.
      * destruct (alloc w1 cand). by inversion Hstep.
Qed.

End registry.


(* ===================================================================== *)
(** * Worked examples *)
(* ===================================================================== *)

(** ** The scenarios of the specification *)

Example declared_root_is_kept :
  QueueInfo.guaranteedResource (validated (buildQueue (declaredRoot 50)))
  = Some (vec "memory" 100) ∧
  checkResourceConfigurationsForQueue (buildQueue (declaredRoot 50)) None
  = inr (validated (buildQueue (declaredRoot 50))).
Proof. vm_compute. done. Qed.

Example declared_root_is_exceeded :
  checkResourceConfigurationsForQueue (buildQueue (declaredRoot 70)) None
  = inl (ErrGuaranteedBelowChildren "root" (vec "memory" 100)
                                    (vec "memory" 110)).
Proof. vm_compute. done. Qed.

Example undeclared_root_is_inferred :
  QueueInfo.guaranteedResource (validated (buildQueue inferredRoot))
  = Some (vec "cpu" 5).
Proof. vm_compute. done. Qed.

(** ** The validator *)

Lemma guarantee_sum_invariant_witness :
  ∃ g, QueueInfo.guaranteedResource (validated (buildQueue inferredRoot))
       = Some g ∧
       FitIn g (addGuaranteed NewResource
                  (QueueInfo.children (validated (buildQueue inferredRoot))))
       = true ∧
       ∀ dim, guaranteedQuantity dim
                (QueueInfo.children (validated (buildQueue inferredRoot)))
              <= quantity g dim.
Proof.
  apply (guarantee_sum_invariant (buildQueue inferredRoot) None
           (validated (buildQueue inferredRoot))).
  - vm_compute. reflexivity.
  - left. reflexivity.
  - vm_compute. discriminate.
Defined.

Lemma inferred_guarantee_witness :
  QueueInfo.guaranteedResource bareLeaf = None ∧
  checkResourceConfigurationsForQueue bareLeaf None
  = inr (QueueInfo.mk "leaf" (Some NewResource) None []).
Proof.
  split; [reflexivity |].
  apply (inferred_guarantee bareLeaf None); reflexivity.
Defined.

(** C2 (as stated) fails: [cappedRoot] has a maximum, no parent, and a
    guaranteed vector that fits within its maximum, and yet validation
    fails with an InvalidHierarchy error, raised by the check of the sum of
    its children. *)
Lemma max_checks_are_not_the_only_failure :
  QueueInfo.maxResource cappedRoot = Some (vec "memory" 100) ∧
  QueueInfo.guaranteedResource cappedRoot = Some (vec "memory" 10) ∧
  ¬ ((∃ err, checkResourceConfigurationsForQueue cappedRoot None = inl err ∧
             kind err = InvalidHierarchy) ↔
     ((∃ p parentMax, (None : option QueueInfo.t) = Some p ∧
                      QueueInfo.maxResource p = Some parentMax ∧
                      FitIn parentMax (vec "memory" 100) = false) ∨
      FitIn (vec "memory" 100) (vec "memory" 10) = false)).
Proof.
  split; [reflexivity |]. split; [reflexivity |]. intros [Hfails _].
  destruct Hfails as [(p & parentMax & Hparent & _) | Hfit].
  - eexists. split; [vm_compute; reflexivity | reflexivity].
  - discriminate Hparent.
  - vm_compute in Hfit. discriminate Hfit.
Qed.

Lemma max_checks_decide_witness :
  (∃ err, checkResourceConfigurationsForQueue tightLeaf None = inl err ∧
          kind err = InvalidHierarchy) ↔
  ((∃ p parentMax, (None : option QueueInfo.t) = Some p ∧
                   QueueInfo.maxResource p = Some parentMax ∧
                   FitIn parentMax (vec "memory" 50) = false) ∨
   FitIn (vec "memory" 50) (vec "memory" 100) = false).
Proof.
  apply (max_checks_decide tightLeaf None [] (vec "memory" 100));
    reflexivity.
Defined.

(** ** The registry *)

Lemma wellFormedb_sound (w : World) : wellFormedb w = true → wellFormed w.
Proof.
  unfold wellFormedb. rewrite forallb_forall. intros Hall k part Hk.
  specialize (Hall (k, part)). cbn in Hall.
  destruct part as [l |]; cbn in Hall.
  - destruct (objects w !! l) as [pi |] eqn:Hl.
    + exists l. split; [done |]. split; [done |]. exists pi. split; [done |].
      eapply bool_decide_eq_true_1, Hall, list_elem_of_In.
      by apply elem_of_map_to_list.
    + discriminate Hall. by apply list_elem_of_In, elem_of_map_to_list.
  - discriminate Hall. by apply list_elem_of_In, elem_of_map_to_list.
Qed.

Lemma bootstrap_precondition_witness :
  @SetClusterInfoFromConfigFile (exampleCollaborators confOne)
     worldTwo "rm" "policy"
  = (worldTwo, ([], Some (ErrRegisteredBefore "rm" (size (partitions worldTwo)))))
  ∧ kind (ErrRegisteredBefore "rm" (size (partitions worldTwo))) = StateConflict
  ∧ ∀ other : Collaborators,
      @SetClusterInfoFromConfigFile other worldTwo "rm" "policy" =
      @SetClusterInfoFromConfigFile (exampleCollaborators confOne)
        worldTwo "rm" "policy".
Proof.
  apply (@bootstrap_precondition (exampleCollaborators confOne)
           worldTwo "rm" "policy").
  vm_compute. lia.
Defined.

Lemma configuration_published_first_witness :
  (@SetClusterInfoFromConfigFile (exampleCollaborators confGoodThenBadNew)
     emptyWorld "rm" "policy").2
  = ([], Some overcommittedError) ∧
  ConfigContext
    (@SetClusterInfoFromConfigFile (exampleCollaborators confGoodThenBadNew)
       emptyWorld "rm" "policy").1 !! "policy"
  = Some confGoodThenBadNew ∧
  snd <$> @UpdateClusterInfoFromConfigFile
            (exampleCollaborators confNewThenBadExisting) worldOne "rm"
  = Some ([], [], Some overcommittedError) ∧
  ConfigContext
    (afterUpdate (exampleCollaborators confNewThenBadExisting) worldOne "rm")
    !! policyGroup worldOne
  = Some confNewThenBadExisting.
Proof.
  split; [vm_compute; reflexivity |]. split; [| split].
  - destruct (@configuration_published_first
                (exampleCollaborators confGoodThenBadNew)
                emptyWorld "rm" confGoodThenBadNew) as [Hboot _].
    apply (Hboot "policy" _
             (@SetClusterInfoFromConfigFile
                (exampleCollaborators confGoodThenBadNew)
                emptyWorld "rm" "policy").2);
      [reflexivity | reflexivity | apply surjective_pairing].
  - vm_compute. reflexivity.
  - destruct (@configuration_published_first
                (exampleCollaborators confNewThenBadExisting)
                worldOne "rm" confNewThenBadExisting) as [_ Hupdate].
    apply (Hupdate _ ([], [], Some overcommittedError));
      [vm_compute; lia | reflexivity | vm_compute; reflexivity].
Defined.

(** *** A failure at the second entry *)

(** C4 (as stated) fails: [default] is in the registry and [gpu] is not.
    The new configuration lists [gpu], which is valid, and then [default]
    with a tree that fails validation.  The call returns the error of the
    candidate of [default], and [gpu], added by this call before the
    failure, remains in the registry. *)
Lemma candidate_failure_does_not_restore_registry :
  partitions worldOne !! "[rm]default" = Some (Some 1%positive) ∧
  partitions worldOne !! "[rm]gpu" = None ∧
  @newPartitionInfoInternal
    (@normalized (exampleCollaborators confNewThenBadExisting)
       (entry "default" overcommittedRoot) "rm") "rm"
  = inl overcommittedError ∧
  snd <$> @UpdateClusterInfoFromConfigFile
            (exampleCollaborators confNewThenBadExisting) worldOne "rm"
  = Some ([], [], Some overcommittedError) ∧
  partitions
    (afterUpdate (exampleCollaborators confNewThenBadExisting) worldOne "rm")
    !! "[rm]gpu" = Some (Some 2%positive) ∧
  partitions
    (afterUpdate (exampleCollaborators confNewThenBadExisting) worldOne "rm")
  ≠ partitions worldOne.
Proof.
  repeat split; try (vm_compute; reflexivity).
  intros Heq.
  assert (partitions
            (afterUpdate (exampleCollaborators confNewThenBadExisting)
               worldOne "rm") !! "[rm]gpu"
          = partitions worldOne !! "[rm]gpu") as Hsame by (by rewrite Heq).
  vm_compute in Hsame. discriminate Hsame.
Qed.

(** A partition updated before the failure keeps its new tree as well: the
    child [b] of [default] is guaranteed memory 45 after the failed call,
    and was guaranteed 50 before. *)
Example earlier_update_is_kept :
  snd <$> @UpdateClusterInfoFromConfigFile
            (exampleCollaborators confUpdateThenBadExisting) worldTwo "rm"
  = Some ([], [], Some overcommittedError) ∧
  childGuaranteed worldTwo 1 1 "memory" = Some 50 ∧
  childGuaranteed
    (afterUpdate (exampleCollaborators confUpdateThenBadExisting) worldTwo "rm")
    1 1 "memory" = Some 45.
Proof. repeat split; vm_compute; reflexivity. Qed.

Lemma candidate_failure_keeps_earlier_state_witness :
  @UpdateClusterInfoFromConfigFile
    (exampleCollaborators confNewThenBadExisting) worldOne "rm"
  = Some (afterEntries (exampleCollaborators confNewThenBadExisting)
            worldOne "rm" confNewThenBadExisting
            [entry "gpu" inferredRoot],
          ([], [], Some overcommittedError)).
Proof.
  apply (@candidate_failure_keeps_earlier_state
           (exampleCollaborators confNewThenBadExisting) worldOne "rm"
           [entry "gpu" inferredRoot]
           (entry "default" overcommittedRoot) [] _ (Some 1%positive)
           overcommittedError).
  - split; [vm_compute; lia |].
    exists confNewThenBadExisting, [Some 2%positive], ({["[rm]gpu"]} ∪ ∅).
    split; [reflexivity |]. split; [reflexivity |]. vm_compute. reflexivity.
  - vm_compute. reflexivity.
  - vm_compute. reflexivity.
Defined.

(** C3 at the failing input: [batch] is new and its tree fails validation.
    The call returns the error, and the registry holds [nil] under the
    name of [batch]. *)
Lemma failed_new_partition_is_registered_witness :
  ∃ w2,
    @UpdateClusterInfoFromConfigFile
      (exampleCollaborators confGoodThenBadNew) worldTwo "rm"
    = Some (w2, ([], [], Some overcommittedError)) ∧
    w2 = addPartition
           (afterEntries (exampleCollaborators confGoodThenBadNew)
              worldTwo "rm" confGoodThenBadNew
              [entry "default" (declaredRoot 50)])
           "[rm]batch" None ∧
    partitions w2 !! "[rm]batch" = Some None.
Proof.
  apply (@failed_new_partition_is_registered
           (exampleCollaborators confGoodThenBadNew) worldTwo "rm"
           [entry "default" (declaredRoot 50)]
           (entry "batch" overcommittedRoot) [] _ overcommittedError).
  - split; [vm_compute; lia |].
    exists confGoodThenBadNew, [Some 1%positive], ({["[rm]default"]} ∪ ∅).
    split; [reflexivity |]. split; [reflexivity |]. vm_compute. reflexivity.
  - vm_compute. reflexivity.
  - vm_compute. reflexivity.
Defined.

(** The sibling path, bootstrap, tests the error first: the same entry
    leaves no trace in the registry. *)
Example failed_bootstrap_registers_nothing_for_the_entry :
  partitions
    (@SetClusterInfoFromConfigFile (exampleCollaborators confGoodThenBadNew)
       emptyWorld "rm" "policy").1 !! "[rm]batch" = None.
Proof. vm_compute. reflexivity. Qed.

(** With [nil] in the registry, the next reconciliation that walks the
    registry stops on it. *)
Example reconcile_after_failed_new_partition_panics :
  @UpdateClusterInfoFromConfigFile (exampleCollaborators confOne)
    (afterUpdate (exampleCollaborators confGoodThenBadNew) worldTwo "rm") "rm"
  = None.
Proof. vm_compute. reflexivity. Qed.

(** C5 (as stated) fails: bootstrap creates and registers [default], then
    fails on [batch]; [default] stays registered at address 1, and the
    list returned with the error is empty. *)
Lemma failed_bootstrap_returns_no_partition :
  (@SetClusterInfoFromConfigFile (exampleCollaborators confGoodThenBadNew)
     emptyWorld "rm" "policy").2
  = ([], Some overcommittedError) ∧
  partitions
    (@SetClusterInfoFromConfigFile (exampleCollaborators confGoodThenBadNew)
       emptyWorld "rm" "policy").1 !! "[rm]default"
  = Some (Some 1%positive) ∧
  PartitionInfo.Name <$>
    objects
      (@SetClusterInfoFromConfigFile (exampleCollaborators confGoodThenBadNew)
         emptyWorld "rm" "policy").1 !! 1%positive
  = Some "[rm]default" ∧
  Some 1%positive ∉
    (@SetClusterInfoFromConfigFile (exampleCollaborators confGoodThenBadNew)
       emptyWorld "rm" "policy").2.1.
Proof.
  repeat split; try (vm_compute; reflexivity).
  assert ((@SetClusterInfoFromConfigFile
             (exampleCollaborators confGoodThenBadNew)
             emptyWorld "rm" "policy").2.1 = []) as ->
    by (vm_compute; reflexivity).
  apply not_elem_of_nil.
Qed.

Lemma failure_keeps_commits_and_returns_nothing_witness :
  @SetClusterInfoFromConfigFile (exampleCollaborators confGoodThenBadNew)
    emptyWorld "rm" "policy"
  = ((@createPartitionInfosFrom (exampleCollaborators confGoodThenBadNew) "rm"
        [entry "default" (declaredRoot 50)]
        (ConfigContext_Set emptyWorld "policy" confGoodThenBadNew) []).1,
     ([], Some overcommittedError)) ∧
  @UpdateClusterInfoFromConfigFile
    (exampleCollaborators confNewThenBadExisting) worldOne "rm"
  = Some (afterEntries (exampleCollaborators confNewThenBadExisting)
            worldOne "rm" confNewThenBadExisting [entry "gpu" inferredRoot],
          ([], [], Some overcommittedError)).
Proof.
  split.
  - destruct (@failure_keeps_commits_and_returns_nothing
                (exampleCollaborators confGoodThenBadNew) "rm"
                [entry "default" (declaredRoot 50)]
                (entry "batch" overcommittedRoot) [] overcommittedError)
      as [Hboot _].
    apply (Hboot emptyWorld "policy" confGoodThenBadNew _ [Some 1%positive]).
    + reflexivity.
    + reflexivity.
    + reflexivity.
    + vm_compute. reflexivity.
    + vm_compute. reflexivity.
  - destruct (@failure_keeps_commits_and_returns_nothing
                (exampleCollaborators confNewThenBadExisting) "rm"
                [entry "gpu" inferredRoot]
                (entry "default" overcommittedRoot) [] overcommittedError)
      as [_ Hupdate].
    apply (Hupdate worldOne
             (afterEntries (exampleCollaborators confNewThenBadExisting)
                worldOne "rm" confNewThenBadExisting
                [entry "gpu" inferredRoot])).
    + split; [vm_compute; lia |].
      exists confNewThenBadExisting, [Some 2%positive], ({["[rm]gpu"]} ∪ ∅).
      split; [reflexivity |]. split; [reflexivity |]. vm_compute. reflexivity.
    + vm_compute. reflexivity.
Defined.

(** *** Removal *)

Lemma removal_is_soft_witness :
  partitions (afterUpdate (exampleCollaborators confOne) worldTwo "rm")
    !! "[rm]gpu" = Some (Some 2%positive) ∧
  (∃ pi', objects (afterUpdate (exampleCollaborators confOne) worldTwo "rm")
            !! 2%positive = Some pi' ∧
          PartitionInfo.state pi' = PENDING_REMOVAL ∧
          PartitionInfo.Name pi' = "[rm]gpu") ∧
  Some 2%positive ∈ [Some 2%positive] ∧
  (∀ name, is_Some (partitions worldTwo !! name) →
           is_Some (partitions
                      (afterUpdate (exampleCollaborators confOne) worldTwo "rm")
                      !! name)) ∧
  ((∀ name, partitions worldTwo !! name = Some (Some 2%positive) →
            name = "[rm]gpu") →
   objects (afterUpdate (exampleCollaborators confOne) worldTwo "rm")
     !! 2%positive = Some (markPartitionForRemoval gpuPartition) ∧
   (PartitionInfo.state gpuPartition = PENDING_REMOVAL →
    objects (afterUpdate (exampleCollaborators confOne) worldTwo "rm")
      !! 2%positive = Some gpuPartition)).
Proof.
  apply (@removal_is_soft (exampleCollaborators confOne) worldTwo
           (afterUpdate (exampleCollaborators confOne) worldTwo "rm") "rm"
           confOne [Some 1%positive] [Some 2%positive] "[rm]gpu" 2%positive
           gpuPartition).
  - reflexivity.
  - vm_compute. reflexivity.
  - vm_compute. reflexivity.
  - vm_compute. reflexivity.
  - reflexivity.
  - apply (bool_decide_eq_true_1 _). vm_compute. reflexivity.
Defined.



(* ===================================================================== *)
(** * Further properties of the validator *)
(* ===================================================================== *)

(** Every queue of an accepted tree is itself the result of a successful
    check of a queue, against some parent. *)
Lemma subqueues_checked (root : QueueInfo.t) (parent : option QueueInfo.t)
    (root' node' : QueueInfo.t) :
  checkResourceConfigurationsForQueue root parent = inr root' →
  In node' (subqueues root') →
  ∃ node p, In node (subqueues root) ∧
            checkResourceConfigurationsForQueue node p = inr node'.
Proof.
  revert parent root'.
  induction root as [name guaranteed max cs IH] using QueueInfo_tree_ind.
  intros parent root' Hcheck Hnode.
  pose proof Hcheck as (cs' & g & Hcs & _ & _ & ->)%check_inr_inv.
  cbn [subqueues QueueInfo.children] in Hnode.
  destruct Hnode as [<- | Hnode].
  - eexists _, parent. split; [by left | done].
  - apply in_flat_map in Hnode as (c' & Hc' & Hnode).
    apply checkChildren_Forall2 in Hcs. cbn [QueueInfo.children] in Hcs.
    destruct (Forall2_In_r _ _ _ _ Hcs Hc') as (c & Hc & Hcc').
    rewrite Forall_forall in IH.
    destruct (IH c (proj2 (list_elem_of_In _ _) Hc) _ _ Hcc' Hnode)
      as (node & p & Hin & Hnodecheck).
    exists node, p. split; [| done]. right. apply in_flat_map. eauto.
Qed.

Lemma checkChildren_inl_inv (cur : QueueInfo.t) (l : list QueueInfo.t)
    (err : Error) :
  checkChildren cur l = inl err →
  ∃ c, In c l ∧ checkResourceConfigurationsForQueue c (Some cur) = inl err.
Proof.
  induction l as [| c r IH]; intros H; cbn in H; [done |].
  destruct (checkResourceConfigurationsForQueue c (Some cur)) as [e | c'] eqn:Hc.
  - inversion H; subst. exists c. split; [by left | done].
  - destruct (checkChildren cur r) as [e | r']; [| done].
    inversion H; subst. destruct (IH eq_refl) as (c0 & Hin & Hc0).
    exists c0. split; [by right | done].
Qed.

Lemma checkChildren_fixed (cur : QueueInfo.t) (l : list QueueInfo.t) :
  Forall (λ c, checkResourceConfigurationsForQueue c (Some cur) = inr c) l →
  checkChildren cur l = inr l.
Proof.
  induction 1 as [| c r Hc _ IH]; [done |].
  cbn [checkChildren]. by rewrite Hc, IH.
Qed.

Lemma Forall2_with_Forall {A B : Type} (P : A → Prop) (R Q : A → B → Prop)
    (l : list A) (l' : list B) :
  Forall P l → Forall2 R l l' → (∀ x y, P x → R x y → Q x y) →
  Forall2 Q l l'.
Proof.
  intros HP HR Himp. revert HP.
  induction HR as [| x y l l' Hxy _ IH]; intros HP; [constructor |].
  apply Forall_cons in HP as [Hx Hl]. constructor; [by apply Himp | by apply IH].
Qed.

(** Of the parent, the checks on the maximum read the maximum only. *)
Lemma checkMax_parentMax (cur cur' : QueueInfo.t)
    (parent parent' : option QueueInfo.t) (g : Resource) :
  QueueInfo.Name cur' = QueueInfo.Name cur →
  QueueInfo.maxResource cur' = QueueInfo.maxResource cur →
  parentMax parent' = parentMax parent →
  checkMax cur' parent' g = checkMax cur parent g.
Proof.
  unfold checkMax, parentMax. intros -> -> Hparent.
  destruct (QueueInfo.maxResource cur) as [max |]; [| done].
  destruct parent' as [p' |], parent as [p |]; cbn in Hparent.
  - by rewrite Hparent.
  - by rewrite Hparent.
  - by rewrite <- Hparent.
  - done.
Qed.

Lemma checkMax_None_inv (cur : QueueInfo.t) (parent : option QueueInfo.t)
    (g max : Resource) :
  checkMax cur parent g = None →
  QueueInfo.maxResource cur = Some max →
  FitIn max g = true ∧
  ∀ pm, parentMax parent = Some pm → FitIn pm max = true.
Proof.
  unfold checkMax, parentMax. intros Hcheck Hmax. rewrite Hmax in Hcheck.
  destruct parent as [p |]; [destruct (QueueInfo.maxResource p) as [pm |] |].
  - destruct (FitIn pm max) eqn:Hpm; cbn in Hcheck; [| done].
    destruct (FitIn max g) eqn:Hg; cbn in Hcheck; [| done].
    split; [done |]. by intros ? [= <-].
  - destruct (FitIn max g) eqn:Hg; cbn in Hcheck; [| done]. by split.
  - destruct (FitIn max g) eqn:Hg; cbn in Hcheck; [| done]. by split.
Qed.

(** X1. Validation fills in, and does nothing else: the accepted tree has
    the shape, the names and the maxima of the tree that was submitted,
    every guaranteed vector that was declared is still the one declared,
    and every queue now has a guaranteed vector. *)
Theorem validation_only_fills (cur : QueueInfo.t)
    (parent : option QueueInfo.t) (cur' : QueueInfo.t) :
  checkResourceConfigurationsForQueue cur parent = inr cur' →
  fills cur cur'.
Proof.
  revert parent cur'.
  induction cur as [name guaranteed max cs IH] using QueueInfo_tree_ind.
  intros parent cur' (cs' & g & Hcs & Hg & _ & ->)%check_inr_inv.
  cbn [QueueInfo.children QueueInfo.Name QueueInfo.guaranteedResource
       QueueInfo.maxResource] in *.
  constructor.
  - intros declared ->. unfold checkGuaranteed in Hg.
    destruct cs' as [| c' r']; [by inversion Hg |].
    destruct (FitIn declared _); cbn in Hg; by inversion Hg.
  - apply checkChildren_Forall2 in Hcs.
    apply (Forall2_with_Forall _ _ _ _ _ IH Hcs).
    intros c c' IHc Hc. by eapply IHc.
Qed.

Lemma validation_only_fills_witness :
  fills (buildQueue inferredRoot) (validated (buildQueue inferredRoot)).
Proof.
  apply (validation_only_fills (buildQueue inferredRoot) None).
  vm_compute. reflexivity.
Defined.

(** X2. Validation is idempotent: the tree an accepted check leaves is
    accepted again, against the same parent or any parent with the same
    maximum, and comes back as it is. *)
Theorem validation_idempotent (cur : QueueInfo.t)
    (parent : option QueueInfo.t) (cur' : QueueInfo.t)
    (parent' : option QueueInfo.t) :
  checkResourceConfigurationsForQueue cur parent = inr cur' →
  parentMax parent' = parentMax parent →
  checkResourceConfigurationsForQueue cur' parent' = inr cur'.
Proof.
  revert parent cur' parent'.
  induction cur as [name guaranteed max cs IH] using QueueInfo_tree_ind.
  intros parent cur' parent' Hcheck Hparent.
  apply check_inr_inv in Hcheck as (cs' & g & Hcs & Hg & Hmax & ->).
  cbn [QueueInfo.children QueueInfo.Name QueueInfo.guaranteedResource
       QueueInfo.maxResource] in *.
  set (cur' := QueueInfo.mk name (Some g) max cs').
  assert (checkChildren cur' cs' = inr cs') as Hcs'.
  { apply checkChildren_fixed. apply checkChildren_Forall2 in Hcs.
    assert (Forall2 (λ _ c', checkResourceConfigurationsForQueue c' (Some cur')
                             = inr c') cs cs') as Hall.
    { apply (Forall2_with_Forall _ _ _ _ _ IH Hcs).
      intros c c' IHc Hc. by eapply IHc. }
    generalize dependent cur'. intros cur' Hall. clear -Hall.
    induction Hall; by constructor. }
  assert (checkGuaranteed name (Some g) cs' = inr g) as Hg'.
  { destruct cs' as [| c' r'] eqn:Hshape; [done |]. cbn [checkGuaranteed].
    rewrite <- Hshape in *.
    assert (cs' ≠ []) as Hne by (by rewrite Hshape).
    by rewrite (checkGuaranteed_fits _ _ _ _ Hne Hg). }
  rewrite check_unfold.
  cbn [QueueInfo.children QueueInfo.Name QueueInfo.guaranteedResource
       QueueInfo.maxResource cur'].
  fold cur'. rewrite Hcs', Hg'.
  by rewrite (checkMax_parentMax (QueueInfo.mk name guaranteed max cs) cur'
                parent parent' g eq_refl eq_refl Hparent), Hmax.
Qed.

Lemma validation_idempotent_witness :
  checkResourceConfigurationsForQueue (validated (buildQueue inferredRoot)) None
  = inr (validated (buildQueue inferredRoot)).
Proof.
  apply (validation_idempotent (buildQueue inferredRoot) None _ None).
  - vm_compute. reflexivity.
  - reflexivity.
Defined.

(** X3. In an accepted tree every maximum bounds what is below it: the
    guaranteed vector of a queue with a maximum fits within that maximum,
    and the maximum of a child fits within the maximum of its parent
    whenever both are set. *)
Theorem max_containment_invariant (root : QueueInfo.t)
    (parent : option QueueInfo.t) (root' : QueueInfo.t) :
  checkResourceConfigurationsForQueue root parent = inr root' →
  ∀ node, In node (subqueues root') →
    (∀ max, QueueInfo.maxResource node = Some max →
       ∃ g, QueueInfo.guaranteedResource node = Some g ∧ FitIn max g = true) ∧
    (∀ child max childMax,
       In child (QueueInfo.children node) →
       QueueInfo.maxResource node = Some max →
       QueueInfo.maxResource child = Some childMax →
       FitIn max childMax = true).
Proof.
  intros Hroot node' Hnode'.
  destruct (subqueues_checked _ _ _ _ Hroot Hnode')
    as (node & p & _ & Hcheck).
  apply check_inr_inv in Hcheck as (cs' & g & Hcs & _ & Hmax & ->).
  cbn [QueueInfo.maxResource QueueInfo.guaranteedResource QueueInfo.children].
  split.
  - intros max Hm. exists g. split; [done |].
    by destruct (checkMax_None_inv _ _ _ _ Hmax Hm).
  - intros child' max childMax Hchild Hm Hcm.
    apply checkChildren_Forall2 in Hcs.
    destruct (Forall2_In_r _ _ _ _ Hcs Hchild) as (child & _ & Hcc).
    apply check_inr_inv in Hcc as (ccs & cg & _ & _ & Hcmax & ->).
    cbn [QueueInfo.maxResource] in Hcm.
    destruct (checkMax_None_inv _ _ _ _ Hcmax Hcm) as [_ Hparent].
    by apply Hparent.
Qed.

Lemma max_containment_invariant_witness :
  (∀ max, QueueInfo.maxResource (validated cappedFamily) = Some max →
     ∃ g, QueueInfo.guaranteedResource (validated cappedFamily) = Some g ∧
          FitIn max g = true) ∧
  (∀ child max childMax,
     In child (QueueInfo.children (validated cappedFamily)) →
     QueueInfo.maxResource (validated cappedFamily) = Some max →
     QueueInfo.maxResource child = Some childMax →
     FitIn max childMax = true).
Proof.
  apply (max_containment_invariant cappedFamily None (validated cappedFamily)).
  - vm_compute. reflexivity.
  - vm_compute. left. reflexivity.
Defined.

(** X4. The children are checked in order and the first failure is final:
    when the children before [child] are accepted and [child] is rejected,
    the queue is rejected with the error of [child], whatever its own
    vectors, its parent and the children after [child] are. *)
Theorem first_failing_child_decides (cur : QueueInfo.t)
    (parent : option QueueInfo.t) (before : list QueueInfo.t)
    (child : QueueInfo.t) (after : list QueueInfo.t) (err : Error) :
  QueueInfo.children cur = before ++ child :: after →
  Forall (λ c, ∃ c', checkResourceConfigurationsForQueue c (Some cur) = inr c')
         before →
  checkResourceConfigurationsForQueue child (Some cur) = inl err →
  checkResourceConfigurationsForQueue cur parent = inl err.
Proof.
  intros Hchildren Hbefore Hchild. rewrite check_unfold, Hchildren.
  assert (checkChildren cur (before ++ child :: after) = inl err) as Hall.
  { clear Hchildren.
    induction Hbefore as [| c r [c' Hc] _ IH]; cbn [app checkChildren].
    - by rewrite Hchild.
    - by rewrite Hc, IH. }
  by rewrite Hall.
Qed.

Lemma first_failing_child_decides_witness :
  checkResourceConfigurationsForQueue familyWithTightLeaf None
  = inl tightLeafError.
Proof.
  apply (first_failing_child_decides familyWithTightLeaf None
           [QueueInfo.mk "a" (Some (vec "memory" 5)) None []] tightLeaf
           [QueueInfo.mk "c" None None []]).
  - reflexivity.
  - constructor; [| constructor]. eexists. vm_compute. reflexivity.
  - vm_compute. reflexivity.
Defined.

(** X5. Only declarations can be refused: a tree in which no queue has a
    maximum and no queue with children declares a guaranteed vector is
    accepted, against any parent. *)
Theorem undeclared_tree_is_accepted (cur : QueueInfo.t)
    (parent : option QueueInfo.t) :
  undeclared cur = true →
  ∃ cur', checkResourceConfigurationsForQueue cur parent = inr cur'.
Proof.
  revert parent.
  induction cur as [name guaranteed max cs IH] using QueueInfo_tree_ind.
  intros parent Hplain. cbn [undeclared] in Hplain.
  destruct max as [max |]; [done |].
  set (cur := QueueInfo.mk name guaranteed None cs).
  assert (forallb undeclared cs = true) as Hcs
    by (destruct cs, guaranteed; done).
  assert (∃ cs', checkChildren cur cs = inr cs') as [cs' Hcs'].
  { clear Hplain. generalize cur. intros cur0.
    induction cs as [| c r IHr]; [by eexists |].
    apply Forall_cons in IH as [IHc IHrest].
    cbn [forallb] in Hcs. apply andb_true_iff in Hcs as [Hc Hr].
    destruct (IHc (Some cur0) Hc) as [c' Hc'].
    destruct (IHr IHrest Hr) as [r' Hr'].
    exists (c' :: r'). cbn [checkChildren]. by rewrite Hc', Hr'. }
  rewrite check_unfold. unfold checkMax.
  change (QueueInfo.children cur) with cs.
  change (QueueInfo.Name cur) with name.
  change (QueueInfo.guaranteedResource cur) with guaranteed.
  change (QueueInfo.maxResource cur) with (@None Resource).
  rewrite Hcs'.
  pose proof (checkChildren_nil_inv _ _ _ Hcs') as Hnil.
  assert (∃ g, checkGuaranteed name guaranteed cs' = inr g) as [g ->].
  { destruct cs' as [| c' r'].
    - destruct guaranteed; by eexists.
    - destruct cs as [| c r];
        [by destruct Hnil as [Hnil _]; specialize (Hnil eq_refl) |].
      destruct guaranteed; [done | by eexists]. }
  by eexists.
Qed.

Lemma undeclared_tree_is_accepted_witness :
  ∃ cur', checkResourceConfigurationsForQueue (buildQueue inferredRoot)
            (Some tightLeaf) = inr cur'.
Proof.
  apply (undeclared_tree_is_accepted (buildQueue inferredRoot) (Some tightLeaf)).
  vm_compute. reflexivity.
Defined.

(** X6. Every error of the validator is an InvalidHierarchy error that
    names a queue of the tree it was given. *)
Theorem validator_error_names_a_queue (cur : QueueInfo.t)
    (parent : option QueueInfo.t) (err : Error) :
  checkResourceConfigurationsForQueue cur parent = inl err →
  kind err = InvalidHierarchy ∧
  ∃ node, In node (subqueues cur) ∧
          errorQueue err = Some (QueueInfo.Name node).
Proof.
  revert parent err.
  induction cur as [name guaranteed max cs IH] using QueueInfo_tree_ind.
  intros parent err Hcheck. rewrite check_unfold in Hcheck.
  cbn [QueueInfo.children QueueInfo.Name QueueInfo.guaranteedResource
       QueueInfo.maxResource] in Hcheck.
  set (cur := QueueInfo.mk name guaranteed max cs) in *.
  destruct (checkChildren cur cs) as [e | cs'] eqn:Hcs.
  - inversion Hcheck; subst e.
    apply checkChildren_inl_inv in Hcs as (c & Hc & Hcerr).
    rewrite Forall_forall in IH.
    destruct (IH c (proj2 (list_elem_of_In _ _) Hc) _ _ Hcerr)
      as (Hkind & node & Hnode & Hname).
    split; [done |]. exists node. split; [| done].
    right. apply in_flat_map. eauto.
  - destruct (checkGuaranteed name guaranteed cs') as [e | g] eqn:Hg.
    + inversion Hcheck; subst e. unfold checkGuaranteed in Hg.
      destruct cs' as [| c' r'], guaranteed as [gd |]; try done.
      destruct (FitIn gd _); cbn in Hg; [done |]. inversion Hg; subst.
      split; [done |]. exists cur. split; [by left | done].
    + destruct (checkMax cur parent g) as [e |] eqn:Hmax; [| done].
      inversion Hcheck; subst e.
      split; [by apply checkMax_kind in Hmax as [_ ?] |].
      exists cur. split; [by left |]. unfold checkMax in Hmax.
      destruct (QueueInfo.maxResource cur) as [m |]; [| done].
      destruct parent as [p |];
        [destruct (QueueInfo.maxResource p) as [pm |] |];
        [destruct (FitIn pm m) | |]; cbn in Hmax;
        try (destruct (FitIn m g); cbn in Hmax); by inversion Hmax.
Qed.

Lemma validator_error_names_a_queue_witness :
  kind tightLeafError = InvalidHierarchy ∧
  ∃ node, In node (subqueues familyWithTightLeaf) ∧
          errorQueue tightLeafError = Some (QueueInfo.Name node).
Proof.
  apply (validator_error_names_a_queue familyWithTightLeaf None).
  vm_compute. reflexivity.
Defined.

Lemma guaranteedQuantity_cons (dim : string) (c : QueueInfo.t)
    (r : list QueueInfo.t) :
  guaranteedQuantity dim (c :: r) =
  quantity (default NewResource (QueueInfo.guaranteedResource c)) dim
  + guaranteedQuantity dim r.
Proof. reflexivity. Qed.

Lemma guaranteedQuantity_nonneg (dim : string) (cs : list QueueInfo.t) :
  (∀ sibling gs, In sibling cs →
     QueueInfo.guaranteedResource sibling = Some gs → 0 <= quantity gs dim) →
  0 <= guaranteedQuantity dim cs.
Proof.
  induction cs as [| c r IH]; intros Hpos; [done |].
  rewrite guaranteedQuantity_cons.
  assert (0 <= guaranteedQuantity dim r) as Hr
    by (apply IH; intros s gs Hs; apply Hpos; by right).
  destruct (QueueInfo.guaranteedResource c) as [gc |] eqn:Hc.
  - pose proof (Hpos c gc (or_introl eq_refl) Hc).
    change (default NewResource (Some gc)) with gc. lia.
  - change (default NewResource None) with NewResource.
    rewrite quantity_NewResource. lia.
Qed.

Lemma guaranteedQuantity_member (dim : string) (cs : list QueueInfo.t)
    (child : QueueInfo.t) (g : Resource) :
  In child cs →
  QueueInfo.guaranteedResource child = Some g →
  (∀ sibling gs, In sibling cs →
     QueueInfo.guaranteedResource sibling = Some gs → 0 <= quantity gs dim) →
  quantity g dim <= guaranteedQuantity dim cs.
Proof.
  intros Hin Hg Hpos.
  induction cs as [| c r IH]; [done |]. rewrite guaranteedQuantity_cons.
  assert (∀ sibling gs, In sibling r →
            QueueInfo.guaranteedResource sibling = Some gs →
            0 <= quantity gs dim) as Hrest
    by (intros s gs Hs; apply Hpos; by right).
  pose proof (guaranteedQuantity_nonneg dim r Hrest) as Hr.
  destruct Hin as [-> | Hin].
  - rewrite Hg. change (default NewResource (Some g)) with g. lia.
  - specialize (IH Hin Hrest).
    destruct (QueueInfo.guaranteedResource c) as [gc |] eqn:Hc.
    + pose proof (Hpos c gc (or_introl eq_refl) Hc).
      change (default NewResource (Some gc)) with gc. lia.
    + change (default NewResource None) with NewResource.
      rewrite quantity_NewResource. lia.
Qed.

(** X7. A child cannot be guaranteed more than its parent, as the comment
    of the validator announces, as long as no guaranteed quantity among the
    children is negative: in an accepted tree the guaranteed vector of
    every child then fits within the guaranteed vector of its parent. *)
Theorem child_guarantee_within_parent (root : QueueInfo.t)
    (parent : option QueueInfo.t) (root' : QueueInfo.t) :
  checkResourceConfigurationsForQueue root parent = inr root' →
  ∀ node child, In node (subqueues root') →
    In child (QueueInfo.children node) →
    (∀ sibling gs dim, In sibling (QueueInfo.children node) →
       QueueInfo.guaranteedResource sibling = Some gs →
       0 <= quantity gs dim) →
    ∃ g gc, QueueInfo.guaranteedResource node = Some g ∧
            QueueInfo.guaranteedResource child = Some gc ∧
            FitIn g gc = true.
Proof.
  intros Hroot node' child' Hnode' Hchild Hpos.
  destruct (subqueues_checked _ _ _ _ Hroot Hnode')
    as (node & p & _ & Hcheck).
  apply check_inr_inv in Hcheck as (cs' & g & Hcs & Hg & _ & ->).
  cbn [QueueInfo.guaranteedResource QueueInfo.children] in *.
  apply checkChildren_Forall2 in Hcs.
  destruct (Forall2_In_r _ _ _ _ Hcs Hchild) as (child & _ & Hcc).
  destruct (check_sets_guaranteed _ _ _ Hcc) as [gc Hgc].
  exists g, gc. split; [done |]. split; [done |].
  assert (cs' ≠ []) as Hne by (by destruct cs').
  pose proof (checkGuaranteed_fits _ _ _ _ Hne Hg) as Hfit.
  apply FitIn_spec. intros dim.
  apply FitIn_spec with (dim := dim) in Hfit.
  rewrite quantity_addGuaranteed, quantity_NewResource in Hfit.
  pose proof (guaranteedQuantity_member dim cs' child' gc Hchild Hgc
                (λ s gs Hs Hgs, Hpos s gs dim Hs Hgs)).
  lia.
Qed.

Lemma child_guarantee_within_parent_witness :
  ∃ g gc,
    QueueInfo.guaranteedResource (validated (buildQueue inferredRoot)) = Some g ∧
    QueueInfo.guaranteedResource
      (QueueInfo.mk "a" (Some (vec "cpu" 2)) None []) = Some gc ∧
    FitIn g gc = true.
Proof.
  apply (child_guarantee_within_parent (buildQueue inferredRoot) None
           (validated (buildQueue inferredRoot))).
  - vm_compute. reflexivity.
  - left. reflexivity.
  - left. vm_compute. reflexivity.
  - intros sibling gs dim [<- | [<- | []]] [= <-]; unfold quantity, vec;
      destruct (decide (dim = "cpu")) as [-> | Hne];
      rewrite ?lookup_singleton_eq, ?lookup_singleton_ne by done; cbn; lia.
Defined.

(* ===================================================================== *)
(** * Further properties of the registry *)
(* ===================================================================== *)

Section registry_further.
Context `{Collaborators}.

(** ** Early failures *)

(** X8. Reconciliation on a registry without any partition fails with a
    StateConflict error and changes nothing; the loader has no part in
    it. *)
Theorem reconcile_precondition (w : World) (rmID : string) :
  size (partitions w) = 0%nat →
  UpdateClusterInfoFromConfigFile w rmID
    = Some (w, ([], [], Some (ErrNoActivePartitions rmID))) ∧
  kind (ErrNoActivePartitions rmID) = StateConflict ∧
  ∀ other : Collaborators,
    @UpdateClusterInfoFromConfigFile other w rmID
    = UpdateClusterInfoFromConfigFile w rmID.
Proof.
  intros Hsize. unfold UpdateClusterInfoFromConfigFile. by rewrite Hsize.
Qed.

(** X9. An error of the loader is handed to the caller as it is, by both
    entry points, with empty lists; the state is not touched, and in
    particular no configuration is recorded as active. *)
Theorem loader_error_is_passed_on (w : World) (rmID : string) (err : Error) :
  (∀ policyGroup0,
     size (partitions w) = 0%nat →
     SchedulerConfigLoader policyGroup0 = inl err →
     SetClusterInfoFromConfigFile w rmID policyGroup0 = (w, ([], Some err))) ∧
  (size (partitions w) ≠ 0%nat →
   SchedulerConfigLoader (policyGroup w) = inl err →
   UpdateClusterInfoFromConfigFile w rmID = Some (w, ([], [], Some err))).
Proof.
  split.
  - intros pg Hsize Hload. unfold SetClusterInfoFromConfigFile.
    by rewrite Hsize, Hload.
  - intros Hsize Hload. unfold UpdateClusterInfoFromConfigFile.
    apply Nat.eqb_neq in Hsize. by rewrite Hsize, Hload.
Qed.

(** ** Bootstrap *)

Lemma createPartitionInfosFrom_ok_iff (rmID : string)
    (ps : list PartitionConfig.t) (w : World) (updated : list ptr) :
  (createPartitionInfosFrom rmID ps w updated).2.2 = None ↔
  Forall (entryValid rmID) ps.
Proof.
  revert w updated. induction ps as [| p ps IH]; intros w updated.
  - cbn. split; [constructor | done].
  - cbn [createPartitionInfosFrom]. rewrite Forall_cons. unfold entryValid at 1.
    destruct (newPartitionInfoInternal (normalized p rmID) rmID)
      as [e | cand] eqn:Hcand.
    + cbn. split; [done | by intros [[? [=]] _]].
    + destruct (alloc w cand) as [l w0]. rewrite IH.
      split; [by split; [eexists |] | by intros [_ ?]].
Qed.

(** X10. On an empty registry and with a configuration loaded, bootstrap
    returns without an error exactly when the tree of every entry passes
    validation. *)
Theorem bootstrap_succeeds_iff_all_valid (w : World)
    (rmID policyGroup0 : string) (conf : SchedulerConfig) :
  size (partitions w) = 0%nat →
  SchedulerConfigLoader policyGroup0 = inr conf →
  (SetClusterInfoFromConfigFile w rmID policyGroup0).2.2 = None ↔
  Forall (entryValid rmID) (Partitions conf).
Proof.
  intros Hsize Hload. unfold SetClusterInfoFromConfigFile, createPartitionInfos.
  rewrite Hsize, Hload. cbn [Nat.ltb Nat.leb].
  rewrite <- (createPartitionInfosFrom_ok_iff rmID (Partitions conf)
                (ConfigContext_Set w policyGroup0 conf) []).
  by destruct (createPartitionInfosFrom _ _ _ _) as [w1 [updated [err |]]].
Qed.

Lemma createPartitionInfosFrom_other_names (rmID : string)
    (ps : list PartitionConfig.t) (w : World) (updated : list ptr)
    (name : string) :
  name ∉ entryNames rmID ps →
  partitions (createPartitionInfosFrom rmID ps w updated).1 !! name
  = partitions w !! name.
Proof.
  revert w updated. induction ps as [| p ps IH]; intros w updated Hname;
    [done |].
  cbn [entryNames map] in Hname. apply not_elem_of_cons in Hname as [Hp Hps].
  cbn [createPartitionInfosFrom].
  destruct (newPartitionInfoInternal (normalized p rmID) rmID) as [e | cand];
    [done |].
  destruct (alloc w cand) as [l w0] eqn:Halloc.
  apply alloc_fresh in Halloc as (_ & _ & Hparts & _).
  rewrite IH by done. cbn. by rewrite lookup_insert_ne, Hparts.
Qed.

(** The loop of bootstrap, when it ends without an error: what it appends,
    what it keeps and what it registers. *)
Lemma createPartitionInfosFrom_success (rmID : string)
    (ps : list PartitionConfig.t) (w w' : World) (updated updated' : list ptr) :
  createPartitionInfosFrom rmID ps w updated = (w', (updated', None)) →
  ∃ created,
    updated' = updated ++ created ∧
    Forall2 (createdFor rmID w w') ps created ∧
    NoDup created ∧
    (∀ l pi, objects w !! l = Some pi → objects w' !! l = Some pi) ∧
    (∀ name, is_Some (partitions w' !! name) ↔
             is_Some (partitions w !! name) ∨ name ∈ entryNames rmID ps) ∧
    (NoDup (entryNames rmID ps) → registeredPointers rmID w' ps = created).
Proof.
  revert w updated. induction ps as [| p ps IH]; intros w updated Hloop;
    cbn [createPartitionInfosFrom] in Hloop.
  - inversion Hloop; subst. exists []. rewrite app_nil_r.
    split; [done |]. split; [constructor |]. split; [constructor |].
    split; [done |]. split; [| done].
    intros name. cbn. rewrite elem_of_nil. tauto.
  - destruct (newPartitionInfoInternal (normalized p rmID) rmID)
      as [e | cand] eqn:Hcand; [done |].
    apply newPartitionInfoInternal_inr in Hcand as [Hname Hcheck].
    destruct (alloc w cand) as [l w0] eqn:Halloc.
    apply alloc_fresh in Halloc as (Hfresh & Hobj & Hparts & _).
    pose proof (f_equal (λ r, partitions r.1) Hloop) as Hregistry.
    cbn in Hregistry.
    apply IH in Hloop
      as (created & -> & Hcreated & Hnodup & Hkeep & Hnames & Hptrs).
    cbn in Hkeep, Hnames.
    assert (objects w' !! l = Some cand) as Hl
      by (apply Hkeep; cbn; rewrite Hobj; apply lookup_insert_eq).
    exists (Some l :: created). rewrite <- app_assoc.
    split; [done |]. split; [| split; [| split; [| split]]].
    + constructor.
      * exists l, cand. cbn in Hcheck. done.
      * eapply Forall2_impl; [done |].
        intros q part (lq & piq & -> & Hnone & Hsome & Hq).
        exists lq, piq. split; [done |]. split; [| by split].
        cbn in Hnone. rewrite Hobj in Hnone.
        by apply lookup_insert_None in Hnone as [? _].
    + constructor; [| done]. intros Hin.
      destruct (proj1 (list_elem_of_lookup _ _) Hin) as [i Hi].
      destruct (Forall2_lookup_r _ _ _ _ _ Hcreated Hi)
        as (q & _ & lq & piq & [= <-] & Hnone & _).
      cbn in Hnone. rewrite Hobj, lookup_insert_eq in Hnone. done.
    + intros l0 pi0 Hl0. apply Hkeep. cbn. rewrite Hobj.
      rewrite lookup_insert_ne; [done |]. congruence.
    + intros name. rewrite Hnames. cbn [entryNames map].
      rewrite lookup_insert_is_Some, Hparts, elem_of_cons. unfold entryNames.
      destruct (decide (PartitionConfig.Name (normalized p rmID) = name));
        intuition congruence.
    + intros Hnd. cbn [entryNames map] in Hnd.
      apply NoDup_cons in Hnd as [Hp Hnd].
      unfold registeredPointers. cbn [entryNames map].
      fold (entryNames rmID ps). fold (registeredPointers rmID w' ps).
      rewrite (Hptrs Hnd). f_equal.
      rewrite <- Hregistry.
      rewrite createPartitionInfosFrom_other_names by done.
      cbn. by rewrite lookup_insert_eq.
Qed.

(** X11. What a bootstrap without an error has done: there is one pointer
    in the list for every entry, in order, each to a partition object that
    did not exist before, bears the normalised name of its entry and owns
    the tree of the entry as validation leaves it; the pointers are
    pairwise distinct; the names in the registry are exactly the
    normalised names of the entries; and when these names are distinct the
    registry holds, under the name of each entry, the pointer returned for
    it. *)
Theorem bootstrap_success_result (w w' : World) (rmID policyGroup0 : string)
    (conf : SchedulerConfig) (updated : list ptr) :
  size (partitions w) = 0%nat →
  SchedulerConfigLoader policyGroup0 = inr conf →
  SetClusterInfoFromConfigFile w rmID policyGroup0 = (w', (updated, None)) →
  Forall2 (createdFor rmID w w') (Partitions conf) updated ∧
  NoDup updated ∧
  (∀ name, is_Some (partitions w' !! name) ↔
           name ∈ entryNames rmID (Partitions conf)) ∧
  (NoDup (entryNames rmID (Partitions conf)) →
   registeredPointers rmID w' (Partitions conf) = updated).
Proof.
  intros Hsize Hload Hcall.
  unfold SetClusterInfoFromConfigFile, createPartitionInfos in Hcall.
  rewrite Hsize, Hload in Hcall. cbn [Nat.ltb Nat.leb] in Hcall.
  destruct (createPartitionInfosFrom _ _ _ _) as [w1 [upd [err |]]] eqn:Hloop;
    [done |].
  inversion Hcall; subst w1 upd. clear Hcall.
  apply createPartitionInfosFrom_success in Hloop
    as (created & -> & Hcreated & Hnodup & _ & Hnames & Hptrs).
  cbn [app]. split; [done |]. split; [done |]. split; [| done].
  intros name. rewrite Hnames. cbn.
  apply map_size_empty_iff in Hsize. rewrite Hsize, lookup_empty.
  split; [intros [[? [=]] | ?]; done | by right].
Qed.

(** X12. Bootstrap never leaves a name without a partition: whatever its
    outcome, a well-formed registry, and so an empty one, is well formed
    after the call. *)
Theorem bootstrap_leaves_registry_wellFormed (w : World)
    (rmID policyGroup0 : string) :
  (wellFormed w →
   wellFormed (SetClusterInfoFromConfigFile w rmID policyGroup0).1) ∧
  (size (partitions w) = 0%nat →
   wellFormed (SetClusterInfoFromConfigFile w rmID policyGroup0).1).
Proof.
  split; [apply bootstrap_wellFormed |].
  intros Hsize. apply bootstrap_wellFormed.
  apply map_size_empty_iff in Hsize. intros k part Hk.
  by rewrite Hsize, lookup_empty in Hk.
Qed.

(** ** Reconciliation *)

Lemma updateEntry_wellFormed_Some (rmID : string) (p : PartitionConfig.t)
    (w : World) :
  wellFormed w → is_Some (updateEntry rmID p w).
Proof.
  intros Hwf. unfold updateEntry.
  destruct (partitions w !! _) as [part |] eqn:Hfound.
  - destruct (newPartitionInfoInternal _ rmID) as [e | cand]; [done |].
    destruct (Hwf _ _ Hfound) as (l & -> & _ & pi & Hl & _). rewrite Hl.
    by destruct (updatePartitionDetails pi _) as [pi' [err |]].
  - destruct (newPartitionInfoInternal _ rmID) as [e | cand]; [done |].
    by destruct (alloc w cand).
Qed.

Lemma updateEntries_wellFormed_Some (rmID : string)
    (ps : list PartitionConfig.t) (w : World) (updated : list ptr)
    (visited : gset string) :
  wellFormed w → is_Some (updateEntries rmID ps w updated visited).
Proof.
  revert w updated visited.
  induction ps as [| p ps IH]; intros w updated visited Hwf; [done |].
  cbn [updateEntries].
  destruct (updateEntry_wellFormed_Some rmID p w Hwf) as [[w0 r] Hstep].
  rewrite Hstep. destruct r as [err | part]; [done |].
  apply IH. by eapply updateEntry_settles.
Qed.

Lemma markRemoved_live_Some (visited : gset string)
    (entries : list (string * ptr)) (w : World) (deleted : list ptr) :
  (∀ k part, (k, part) ∈ entries →
     ∃ l, part = Some l ∧ is_Some (objects w !! l)) →
  is_Some (markRemoved visited entries w deleted).
Proof.
  revert w deleted.
  induction entries as [| [k part] entries IH]; intros w deleted Hlive;
    [done |].
  cbn [markRemoved].
  destruct (Hlive k part) as (l & -> & pi & Hl); [by apply elem_of_cons; left |].
  rewrite Hl.
  assert (∀ k part, (k, part) ∈ entries →
            ∃ l, part = Some l ∧ is_Some (objects w !! l)) as Hrest
    by (intros k0 part0 Hin; apply (Hlive k0), elem_of_cons; by right).
  destruct (bool_decide _); [by apply IH |].
  apply IH. intros k0 part0 Hin.
  destruct (Hrest _ _ Hin) as (l0 & -> & Hl0). exists l0. split; [done |].
  cbn. rewrite lookup_insert_is_Some.
  destruct (decide (l = l0)); auto.
Qed.

(** X13. On a well-formed registry reconciliation always returns: it
    never stops on a [nil] pointer, whatever the configuration is. *)
Theorem reconcile_returns_on_wellFormed (w : World) (rmID : string) :
  wellFormed w → is_Some (UpdateClusterInfoFromConfigFile w rmID).
Proof.
  intros Hwf. unfold UpdateClusterInfoFromConfigFile.
  destruct (size (partitions w) =? 0)%nat; [done |].
  destruct (SchedulerConfigLoader (policyGroup w)) as [e | conf]; [done |].
  assert (wellFormed (ConfigContext_Set w (policyGroup w) conf)) as Hwf0
    by exact Hwf.
  destruct (updateEntries_wellFormed_Some rmID (Partitions conf) _ [] ∅ Hwf0)
    as [[w1 r] Hloop].
  rewrite Hloop. destruct r as [err | [updated visited]]; [done |].
  pose proof (updateEntries_wellFormed _ _ _ _ _ _ _ Hwf0 Hloop) as Hwf1.
  destruct (markRemoved_live_Some visited (map_to_list (partitions w1)) w1 [])
    as [[w2 deleted] Hmark]; [| by rewrite Hmark].
  intros k part Hin%elem_of_map_to_list.
  destruct (Hwf1 _ _ Hin) as (l & -> & _ & pi & Hl & _). by eauto.
Qed.

Lemma updateEntry_names (rmID : string) (p : PartitionConfig.t)
    (w w' : World) (r : Error + ptr) (name : string) :
  updateEntry rmID p w = Some (w', r) →
  is_Some (partitions w' !! name) →
  is_Some (partitions w !! name) ∨
  name = PartitionConfig.Name (normalized p rmID).
Proof.
  unfold updateEntry. intros Hstep Hname.
  destruct (partitions w !! _) as [part |] eqn:Hfound.
  - destruct (newPartitionInfoInternal _ rmID) as [e | cand];
      [inversion Hstep; subst; by left |].
    destruct part as [l |]; [| done].
    destruct (objects w !! l) as [pi |]; [| done].
    destruct (updatePartitionDetails pi _) as [pi' [err |]];
      inversion Hstep; subst; by left.
  - destruct (newPartitionInfoInternal _ rmID) as [e | cand].
    + inversion Hstep; subst. cbn in Hname.
      apply lookup_insert_is_Some in Hname as [<- | [_ ?]]; auto.
    + destruct (alloc w cand) as [l w0] eqn:Halloc.
      apply alloc_fresh in Halloc as (_ & _ & Hparts & _).
      inversion Hstep; subst. cbn in Hname. rewrite Hparts in Hname.
      apply lookup_insert_is_Some in Hname as [<- | [_ ?]]; auto.
Qed.

(** The first loop, when it ends without an error on a well-formed
    registry. *)
Lemma updateEntries_success (rmID : string) (ps : list PartitionConfig.t)
    (w w' : World) (updated updated' : list ptr) (visited visited' : gset string) :
  wellFormed w →
  updateEntries rmID ps w updated visited
    = Some (w', inr (updated', visited')) →
  wellFormed w' ∧
  updated' = updated ++ registeredPointers rmID w' ps ∧
  (∀ name part, partitions w !! name = Some part →
                partitions w' !! name = Some part) ∧
  (∀ name, is_Some (partitions w' !! name) ↔
           is_Some (partitions w !! name) ∨ name ∈ entryNames rmID ps).
Proof.
  revert w updated visited.
  induction ps as [| p ps IH]; intros w updated visited Hwf Hloop;
    cbn [updateEntries] in Hloop.
  - inversion Hloop; subst. cbn. rewrite app_nil_r.
    repeat split; try done; [by left |].
    intros [? | Hin]; [done | by apply elem_of_nil in Hin].
  - destruct (updateEntry rmID p w) as [[w0 [err | part]] |] eqn:Hstep;
      [done | | done].
    destruct (updateEntry_settles _ _ _ _ _ Hwf Hstep)
      as (Hwf0 & (l & pi & Hreg & _) & Hpart0 & Hmono0 & _).
    destruct (IH _ _ _ Hwf0 Hloop) as (Hwf' & -> & Hmono' & Hnames').
    split; [done |]. split; [| split].
    + rewrite <- app_assoc. unfold registeredPointers.
      cbn [entryNames map app]. by rewrite (Hmono' _ _ Hpart0).
    + intros name part0 Hname. by apply Hmono', Hmono0.
    + intros name. rewrite Hnames'. cbn [entryNames map].
      rewrite elem_of_cons. unfold entryNames. split.
      * intros [Hsome | Hin]; [| by auto].
        destruct (updateEntry_names _ _ _ _ _ _ Hstep Hsome); auto.
      * intros [Hsome | [-> | Hin]]; [| | by auto].
        -- left. destruct Hsome as [part0 Hpart]. exists part0.
           by apply Hmono0.
        -- left. by rewrite Hreg.
Qed.

(** X14. What a reconciliation without an error has done to a well-formed
    registry: the registry is well formed again; the list of updated
    partitions holds, for each entry in order, the pointer registered under
    the normalised name of the entry, which is never [nil]; every name
    keeps the pointer it had; and the names in the registry are the former
    ones and those of the entries. *)
Theorem reconcile_success_result (w w' : World) (rmID : string)
    (conf : SchedulerConfig) (updated deleted : list ptr) :
  wellFormed w →
  SchedulerConfigLoader (policyGroup w) = inr conf →
  UpdateClusterInfoFromConfigFile w rmID = Some (w', (updated, deleted, None)) →
  wellFormed w' ∧
  updated = registeredPointers rmID w' (Partitions conf) ∧
  Forall (λ part, ∃ l, part = Some l ∧ is_Some (objects w' !! l)) updated ∧
  (∀ name part, partitions w !! name = Some part →
                partitions w' !! name = Some part) ∧
  (∀ name, is_Some (partitions w' !! name) ↔
           is_Some (partitions w !! name) ∨
           name ∈ entryNames rmID (Partitions conf)).
Proof.
  intros Hwf Hload Hcall.
  pose proof (reconcile_wellFormed _ _ _ _ _ Hwf Hcall) as Hwf'.
  unfold UpdateClusterInfoFromConfigFile in Hcall. rewrite Hload in Hcall.
  destruct (size (partitions w) =? 0)%nat; [done |].
  destruct (updateEntries _ _ _ _ _) as [[w0 [err | [upd vis]]] |] eqn:Hloop;
    [done | | done].
  destruct (markRemoved _ _ _ _) as [[w2 del] |] eqn:Hmark; [| done].
  inversion Hcall; subst w2 upd del. clear Hcall.
  assert (wellFormed (ConfigContext_Set w (policyGroup w) conf)) as Hwf0
    by exact Hwf.
  destruct (updateEntries_success _ _ _ _ _ _ _ _ Hwf0 Hloop)
    as (_ & Hupd & Hmono & Hnames).
  destruct (markRemoved_frame _ _ _ _ _ _ Hmark) as (_ & Hparts & _).
  cbn [app] in Hupd.
  assert (updated = registeredPointers rmID w' (Partitions conf)) as Hupd'
    by (rewrite Hupd; unfold registeredPointers; by rewrite Hparts).
  split; [done |]. split; [done |]. split; [| split].
  - rewrite Hupd'. unfold registeredPointers. apply Forall_forall.
    intros part (name & -> & Hin)%list_elem_of_fmap.
    assert (is_Some (partitions w' !! name)) as [part0 Hpart0]
      by (rewrite Hparts; apply Hnames; by right).
    rewrite Hpart0. cbn.
    destruct (Hwf' _ _ Hpart0) as (l & -> & _ & pi & Hl & _). by eauto.
  - intros name part0 Hname. rewrite Hparts. by apply Hmono.
  - intros name. rewrite Hparts. apply Hnames.
Qed.

Lemma unvisited_elem (visited : gset string)
    (objs : gmap loc PartitionInfo.t) (entries : list (string * ptr))
    (part : ptr) :
  part ∈ unvisited visited objs entries →
  ∃ k l pi, part = Some l ∧ (k, part) ∈ entries ∧ objs !! l = Some pi ∧
            PartitionInfo.Name pi ∉ visited.
Proof.
  induction entries as [| [k0 part0] entries IH]; cbn [unvisited];
    [by intros ?%elem_of_nil |].
  intros Hin.
  assert (part ∈ unvisited visited objs entries →
          ∃ k l pi, part = Some l ∧ (k, part) ∈ (k0, part0) :: entries ∧
                    objs !! l = Some pi ∧ PartitionInfo.Name pi ∉ visited)
    as Hrest.
  { intros (k & l & pi & -> & Hk & Hl & Hname)%IH.
    exists k, l, pi. repeat split; try done. apply elem_of_cons. by right. }
  destruct part0 as [l0 |]; cbn in Hin; [| by apply Hrest].
  destruct (objs !! l0) as [pi0 |] eqn:Hl0; [| by apply Hrest].
  destruct (bool_decide _) eqn:Hdec; [by apply Hrest |].
  apply bool_decide_eq_false in Hdec.
  apply elem_of_cons in Hin as [-> | Hin]; [| by apply Hrest].
  exists k0, l0, pi0. repeat split; try done. apply elem_of_cons. by left.
Qed.

(** X15. Only partitions that the configuration does not list are
    removed: after a reconciliation without an error on a well-formed
    registry, every pointer of the deletions list is the pointer the
    registry held, before the call, under a name that is not the
    normalised name of any entry; the partition is pending removal, and the
    pointer is not in the list of updated partitions. *)
Theorem deleted_are_unlisted (w w' : World) (rmID : string)
    (conf : SchedulerConfig) (updated deleted : list ptr) (part : ptr) :
  wellFormed w →
  SchedulerConfigLoader (policyGroup w) = inr conf →
  UpdateClusterInfoFromConfigFile w rmID = Some (w', (updated, deleted, None)) →
  part ∈ deleted →
  ∃ name l pi,
    part = Some l ∧ partitions w !! name = Some (Some l) ∧
    (name ∉ entryNames rmID (Partitions conf)) ∧
    objects w' !! l = Some pi ∧
    PartitionInfo.state pi = PENDING_REMOVAL ∧
    (part ∉ updated).
Proof.
  intros Hwf Hload Hcall Hin.
  unfold UpdateClusterInfoFromConfigFile in Hcall. rewrite Hload in Hcall.
  destruct (size (partitions w) =? 0)%nat; [done |].
  destruct (updateEntries _ _ _ _ _) as [[w0 [err | [upd vis]]] |] eqn:Hloop;
    [done | | done].
  destruct (markRemoved _ _ _ _) as [[w2 del] |] eqn:Hmark; [| done].
  inversion Hcall; subst w2 upd del. clear Hcall.
  assert (wellFormed (ConfigContext_Set w (policyGroup w) conf)) as Hwf0
    by exact Hwf.
  destruct (updateEntries_success _ _ _ _ _ _ _ _ Hwf0 Hloop)
    as (Hwf1 & Hupd & _ & Hnames).
  cbn [app] in Hupd.
  rewrite (markRemoved_deleted _ _ _ _ _ _ Hmark) in Hin. cbn [app] in Hin.
  apply unvisited_elem in Hin as (k & l & pi & -> & Hk & Hl & Hvis).
  apply elem_of_map_to_list in Hk.
  destruct (Hwf1 _ _ Hk) as (l' & [= <-] & Hreg).
  pose proof Hreg as (_ & pi' & Hl' & Hname).
  assert (pi' = pi) as -> by congruence.
  assert (k ∉ entryNames rmID (Partitions conf)) as Hnot.
  { intros Hlisted. apply Hvis.
    rewrite Hname, (updateEntries_visited _ _ _ _ _ _ _ _ Hloop). by right. }
  destruct (markRemoved_marks _ _ _ _ _ _ k l pi Hmark) as [Hl2 _];
    [by apply elem_of_map_to_list | done | done |].
  exists k, l, (markPartitionForRemoval pi).
  split; [done |]. split; [| split; [done | split; [done | split; [done |]]]].
  - assert (is_Some (partitions w0 !! k)) as Hsome by (by eexists).
    apply Hnames in Hsome as [[part0 Hpart0] | ?]; [| done].
    destruct (updateEntries_success _ _ _ _ _ _ _ _ Hwf0 Hloop)
      as (_ & _ & Hmono & _).
    specialize (Hmono _ _ Hpart0). cbn in Hpart0. congruence.
  - rewrite Hupd. unfold registeredPointers.
    intros (name & Heq & Hlisted)%list_elem_of_fmap.
    assert (is_Some (partitions w0 !! name)) as [part0 Hpart0]
      by (apply Hnames; by right).
    rewrite Hpart0 in Heq. cbn in Heq. subst part0.
    destruct (Hwf1 _ _ Hpart0) as (l0 & [= <-] & Hreg0).
    assert (name = k) as -> by (by eapply registered_inj).
    done.
Qed.

(** X16. A new partition is created by reconciliation exactly as by
    bootstrap: when none of the names of the entries is registered and the
    names are distinct, and the loop of bootstrap ends without an error,
    then the first loop of reconciliation, run from the same state, ends
    in the same state with the same list. *)
Theorem reconcile_creates_as_bootstrap (rmID : string)
    (ps : list PartitionConfig.t) (w w' : World) (updated updated' : list ptr)
    (visited : gset string) :
  (∀ name, name ∈ entryNames rmID ps → partitions w !! name = None) →
  NoDup (entryNames rmID ps) →
  createPartitionInfosFrom rmID ps w updated = (w', (updated', None)) →
  updateEntries rmID ps w updated visited
    = Some (w', inr (updated', visitedAfter rmID ps visited)).
Proof.
  revert w updated visited.
  induction ps as [| p ps IH]; intros w updated visited Hnew Hnodup Hloop;
    cbn [createPartitionInfosFrom] in Hloop; cbn [updateEntries].
  - by inversion Hloop.
  - cbn [entryNames map] in Hnodup, Hnew.
    apply NoDup_cons in Hnodup as [Hp Hnodup].
    destruct (newPartitionInfoInternal (normalized p rmID) rmID)
      as [e | cand] eqn:Hcand; [done |].
    destruct (alloc w cand) as [l w0] eqn:Halloc.
    assert (updateEntry rmID p w
            = Some (addPartition w0
                      (PartitionConfig.Name (normalized p rmID)) (Some l),
                    inr (Some l))) as ->.
    { unfold updateEntry.
      rewrite (Hnew (PartitionConfig.Name (normalized p rmID)))
        by (apply elem_of_cons; by left).
      by rewrite Hcand, Halloc. }
    apply alloc_fresh in Halloc as (_ & _ & Hparts & _).
    apply IH; [| done | done].
    intros name Hname. cbn. rewrite lookup_insert_ne, Hparts.
    + apply Hnew, elem_of_cons. by right.
    + intros <-. done.
Qed.

End registry_further.

(** ** Worked examples for the registry *)

Lemma reconcile_precondition_witness :
  @UpdateClusterInfoFromConfigFile (exampleCollaborators confOne)
    emptyWorld "rm"
  = Some (emptyWorld, ([], [], Some (ErrNoActivePartitions "rm"))) ∧
  kind (ErrNoActivePartitions "rm") = StateConflict ∧
  ∀ other : Collaborators,
    @UpdateClusterInfoFromConfigFile other emptyWorld "rm"
    = @UpdateClusterInfoFromConfigFile (exampleCollaborators confOne)
        emptyWorld "rm".
Proof.
  apply (@reconcile_precondition (exampleCollaborators confOne) emptyWorld "rm").
  reflexivity.
Defined.

Lemma loader_error_is_passed_on_witness :
  @SetClusterInfoFromConfigFile (failingCollaborators (ErrConfigLoad "unreadable"))
    emptyWorld "rm" "policy"
  = (emptyWorld, ([], Some (ErrConfigLoad "unreadable"))) ∧
  @UpdateClusterInfoFromConfigFile
    (failingCollaborators (ErrConfigLoad "unreadable")) worldOne "rm"
  = Some (worldOne, ([], [], Some (ErrConfigLoad "unreadable"))).
Proof.
  split.
  - destruct (@loader_error_is_passed_on
                (failingCollaborators (ErrConfigLoad "unreadable"))
                emptyWorld "rm" (ErrConfigLoad "unreadable")) as [Hboot _].
    apply (Hboot "policy"); reflexivity.
  - destruct (@loader_error_is_passed_on
                (failingCollaborators (ErrConfigLoad "unreadable"))
                worldOne "rm" (ErrConfigLoad "unreadable")) as [_ Hupdate].
    apply Hupdate; [vm_compute; lia | reflexivity].
Defined.

Lemma bootstrap_succeeds_iff_all_valid_witness :
  (@SetClusterInfoFromConfigFile (exampleCollaborators confGoodThenBadNew)
     emptyWorld "rm" "policy").2.2 = None ↔
  Forall (@entryValid (exampleCollaborators confGoodThenBadNew) "rm")
         (Partitions confGoodThenBadNew).
Proof.
  apply (@bootstrap_succeeds_iff_all_valid
           (exampleCollaborators confGoodThenBadNew) emptyWorld "rm" "policy"
           confGoodThenBadNew); reflexivity.
Defined.

Lemma bootstrap_success_result_witness :
  Forall2 (@createdFor (exampleCollaborators confTwo) "rm" emptyWorld worldTwo)
          (Partitions confTwo) [Some 1%positive; Some 2%positive] ∧
  NoDup [Some 1%positive; Some 2%positive] ∧
  (∀ name, is_Some (partitions worldTwo !! name) ↔
           name ∈ @entryNames (exampleCollaborators confTwo) "rm"
                    (Partitions confTwo)) ∧
  (NoDup (@entryNames (exampleCollaborators confTwo) "rm" (Partitions confTwo)) →
   @registeredPointers (exampleCollaborators confTwo) "rm" worldTwo
     (Partitions confTwo) = [Some 1%positive; Some 2%positive]).
Proof.
  apply (@bootstrap_success_result (exampleCollaborators confTwo)
           emptyWorld worldTwo "rm" "policy" confTwo).
  - reflexivity.
  - reflexivity.
  - vm_compute. reflexivity.
Defined.

Lemma bootstrap_leaves_registry_wellFormed_witness :
  wellFormed
    (@SetClusterInfoFromConfigFile (exampleCollaborators confGoodThenBadNew)
       emptyWorld "rm" "policy").1.
Proof.
  destruct (@bootstrap_leaves_registry_wellFormed
              (exampleCollaborators confGoodThenBadNew)
              emptyWorld "rm" "policy") as [_ Hempty].
  apply Hempty. reflexivity.
Defined.

Lemma reconcile_returns_on_wellFormed_witness :
  is_Some (@UpdateClusterInfoFromConfigFile
             (exampleCollaborators confUpdateThenBadExisting) worldTwo "rm").
Proof.
  apply (@reconcile_returns_on_wellFormed
           (exampleCollaborators confUpdateThenBadExisting) worldTwo "rm").
  apply wellFormedb_sound. vm_compute. reflexivity.
Defined.

Lemma reconcile_success_result_witness :
  wellFormed (afterUpdate (exampleCollaborators confOne) worldTwo "rm") ∧
  [Some 1%positive]
  = @registeredPointers (exampleCollaborators confOne) "rm"
      (afterUpdate (exampleCollaborators confOne) worldTwo "rm")
      (Partitions confOne) ∧
  Forall (λ part, ∃ l, part = Some l ∧
            is_Some (objects
                       (afterUpdate (exampleCollaborators confOne) worldTwo "rm")
                       !! l))
         [Some 1%positive] ∧
  (∀ name part, partitions worldTwo !! name = Some part →
     partitions (afterUpdate (exampleCollaborators confOne) worldTwo "rm")
       !! name = Some part) ∧
  (∀ name,
     is_Some (partitions
                (afterUpdate (exampleCollaborators confOne) worldTwo "rm")
                !! name) ↔
     is_Some (partitions worldTwo !! name) ∨
     name ∈ @entryNames (exampleCollaborators confOne) "rm"
              (Partitions confOne)).
Proof.
  apply (@reconcile_success_result (exampleCollaborators confOne) worldTwo
           (afterUpdate (exampleCollaborators confOne) worldTwo "rm") "rm"
           confOne [Some 1%positive] [Some 2%positive]).
  - apply wellFormedb_sound. vm_compute. reflexivity.
  - reflexivity.
  - vm_compute. reflexivity.
Defined.

Lemma deleted_are_unlisted_witness :
  ∃ name l pi,
    Some 2%positive = Some l ∧
    partitions worldTwo !! name = Some (Some l) ∧
    (name ∉ @entryNames (exampleCollaborators confOne) "rm"
              (Partitions confOne)) ∧
    objects (afterUpdate (exampleCollaborators confOne) worldTwo "rm") !! l
    = Some pi ∧
    PartitionInfo.state pi = PENDING_REMOVAL ∧
    (Some 2%positive ∉ [Some 1%positive]).
Proof.
  apply (@deleted_are_unlisted (exampleCollaborators confOne) worldTwo
           (afterUpdate (exampleCollaborators confOne) worldTwo "rm") "rm"
           confOne [Some 1%positive] [Some 2%positive] (Some 2%positive)).
  - apply wellFormedb_sound. vm_compute. reflexivity.
  - reflexivity.
  - vm_compute. reflexivity.
  - apply (bool_decide_eq_true_1 _). vm_compute. reflexivity.
Defined.

Lemma reconcile_creates_as_bootstrap_witness :
  @updateEntries (exampleCollaborators confTwo) "rm" (Partitions confTwo)
    (ConfigContext_Set emptyWorld "policy" confTwo) [] ∅
  = Some (worldTwo,
          inr ([Some 1%positive; Some 2%positive],
               @visitedAfter (exampleCollaborators confTwo) "rm"
                 (Partitions confTwo) ∅)).
Proof.
  apply (@reconcile_creates_as_bootstrap (exampleCollaborators confTwo) "rm"
           (Partitions confTwo) (ConfigContext_Set emptyWorld "policy" confTwo)
           worldTwo [] [Some 1%positive; Some 2%positive] ∅).
  - intros name _. apply lookup_empty.
  - apply (bool_decide_eq_true_1 _). vm_compute. reflexivity.
  - vm_compute. reflexivity.
Defined.

(* ===================================================================== *)
(** * Inference from the leaves *)
(* ===================================================================== *)

Lemma guaranteedQuantity_leaves (dim : string) (cs cs' : list QueueInfo.t) :
  Forall2 (λ c c', ∃ g, QueueInfo.guaranteedResource c' = Some g ∧
                        quantity g dim = leafQuantity dim c) cs cs' →
  guaranteedQuantity dim cs' = foldr Z.add 0 (map (leafQuantity dim) cs).
Proof.
  induction 1 as [| c c' r r' (g & Hg & Hq) _ IH]; [done |].
  rewrite guaranteedQuantity_cons, Hg, IH. cbn [map foldr].
  change (default NewResource (Some g)) with g. lia.
Qed.

Lemma checkGuaranteed_inferred (name : string) (cs : list QueueInfo.t)
    (g : Resource) :
  cs ≠ [] →
  checkGuaranteed name None cs = inr g →
  g = addGuaranteed NewResource cs.
Proof. destruct cs; [done |]. intros _ Hg. by inversion Hg. Qed.

(** X17. Guarantees are inferred bottom-up from the leaves: in a tree
    without maxima in which only leaves declare a guaranteed vector, every
    accepted queue is guaranteed, on each dimension, the total of what the
    leaves below it declare. *)
Theorem inferred_from_leaves (cur : QueueInfo.t) (parent : option QueueInfo.t)
    (cur' : QueueInfo.t) :
  undeclared cur = true →
  checkResourceConfigurationsForQueue cur parent = inr cur' →
  ∃ g, QueueInfo.guaranteedResource cur' = Some g ∧
       ∀ dim, quantity g dim = leafQuantity dim cur.
Proof.
  revert parent cur'.
  induction cur as [name guaranteed max cs IH] using QueueInfo_tree_ind.
  intros parent cur' Hplain (cs' & g & Hcs & Hg & _ & ->)%check_inr_inv.
  cbn [QueueInfo.children QueueInfo.Name QueueInfo.guaranteedResource] in *.
  exists g. split; [done |]. intros dim.
  cbn [undeclared] in Hplain. destruct max as [max |]; [done |].
  pose proof (checkChildren_nil_inv _ _ _ Hcs) as Hnil.
  apply checkChildren_Forall2 in Hcs.
  destruct cs as [| c r].
  - assert (cs' = []) as -> by (by apply Hnil).
    cbn [checkGuaranteed] in Hg. cbn [leafQuantity].
    by destruct guaranteed; inversion Hg.
  - destruct guaranteed as [gd |]; [done |].
    destruct cs' as [| c' r'];
      [by destruct Hnil as [_ Hnil]; specialize (Hnil eq_refl) |].
    assert (c' :: r' ≠ []) as Hne by done.
    rewrite (checkGuaranteed_inferred _ _ _ Hne Hg).
    rewrite quantity_addGuaranteed, quantity_NewResource.
    change (leafQuantity dim (QueueInfo.mk name None None (c :: r)))
      with (foldr Z.add 0 (map (leafQuantity dim) (c :: r))).
    rewrite <- (guaranteedQuantity_leaves dim (c :: r) (c' :: r')); [lia |].
    assert (Forall (λ c0, undeclared c0 = true) (c :: r)) as Hall
      by (apply Forall_forall; intros c0 Hc0;
          by apply (proj1 (forallb_forall _ _) Hplain), list_elem_of_In).
    assert (Forall (λ c0, ∀ c0', checkResourceConfigurationsForQueue c0
                            (Some (QueueInfo.mk name None None (c :: r)))
                            = inr c0' →
                          ∃ g, QueueInfo.guaranteedResource c0' = Some g ∧
                               quantity g dim = leafQuantity dim c0)
                   (c :: r)) as Hboth.
    { apply Forall_forall. intros c0 Hc0 c0' Hc0'.
      rewrite Forall_forall in IH, Hall.
      destruct (IH c0 Hc0 _ _ (Hall c0 Hc0) Hc0') as (g0 & Hg0 & Hq0).
      exists g0. by split. }
    apply (Forall2_with_Forall _ _ _ _ _ Hboth Hcs).
    intros c0 c0' Hc0 Hcc. by apply Hc0.
Qed.

Lemma inferred_from_leaves_witness :
  ∃ g, QueueInfo.guaranteedResource (validated (buildQueue inferredRoot))
       = Some g ∧
       ∀ dim, quantity g dim = leafQuantity dim (buildQueue inferredRoot).
Proof.
  apply (inferred_from_leaves (buildQueue inferredRoot) None).
  - vm_compute. reflexivity.
  - vm_compute. reflexivity.
Defined.
